(** * go-indigocore: the validator composite, the Tendermint store client,
      the Postgres batch and the consensus state machine

    A shallow embedding of the Go sources and the properties the
    specification states about them.

    Conventions of the embedding:
    - a Go [error] value is an [option error] ([None] is [nil]);
    - a function returning [(T, error)] where exactly one side is meaningful
      returns a sum [T + error];
    - a pointer that the code dereferences without a nil check is an
      [option], and the dereference of [None] is an explicit [Panic];
    - calls on collaborators (Tendermint client, channels, sleeping) are
      recorded in a trace, so that statements can speak about what a
      function did and in which order. *)

From stdpp Require Import base option list strings vector gmap.

Open Scope string_scope.
Open Scope list_scope.

(** ** Package cs and types: links, segments, evidences, errors *)

Module cs.

(** [types.Bytes32] is [[32]byte]. *)
Definition Bytes32 : Type := vec Byte.byte 32.

(** The slice [h[:]] of a [Bytes32]. *)
Definition Bytes32_slice (h : Bytes32) : list Byte.byte := vec_to_list h.

Record SegmentReference : Type := {
  ref_Process : string;
  ref_LinkHash : string;
}.

Record LinkMeta : Type := {
  MapID : string;
  Process : string;
  Type_ : string;
  Refs : list SegmentReference;
}.

Record Link : Type := {
  State : string;
  Meta : LinkMeta;
  Signatures : list string;
}.

Record Evidence : Type := {
  Backend : string;
  Provider : string;
  Proof_ : string;
}.

Record SegmentMeta : Type := {
  LinkHash : string;
  Evidences : list Evidence;
}.

Record Segment : Type := {
  seg_Link : Link;
  seg_Meta : SegmentMeta;
}.

#[global] Instance SegmentReference_eq_dec : EqDecision SegmentReference.
Proof. solve_decision. Defined.
#[global] Instance LinkMeta_eq_dec : EqDecision LinkMeta.
Proof. solve_decision. Defined.
#[global] Instance Link_eq_dec : EqDecision Link.
Proof. solve_decision. Defined.
#[global] Instance Evidence_eq_dec : EqDecision Evidence.
Proof. solve_decision. Defined.
#[global] Instance SegmentMeta_eq_dec : EqDecision SegmentMeta.
Proof. solve_decision. Defined.
#[global] Instance Segment_eq_dec : EqDecision Segment.
Proof. solve_decision. Defined.

End cs.

(** ** Go errors *)

Module goerr.

(** The error values the modelled packages create or compare.
    [ErrNew] stands for [errors.New], [fmt.Errorf] and [errors.Errorf] (an
    error that is only a message), [ErrWithStack] for [errors.WithStack]
    (the same error, annotated), [ErrBadRequest] for
    [jsonhttp.NewErrBadRequest] (an HTTP 400 error), and
    [ErrAlreadyStarted] for the sentinel of tmlibs/common that the code
    compares by identity. *)
Inductive error : Type :=
| ErrNew (msg : string)
| ErrWithStack (cause : error)
| ErrBadRequest (msg : string)
| ErrAlreadyStarted.

#[global] Instance error_eq_dec : EqDecision error.
Proof. solve_decision. Defined.

(** The method [Error()]. *)
Fixpoint Error (e : error) : string :=
  match e with
  | ErrNew msg => msg
  | ErrWithStack cause => Error cause
  | ErrBadRequest msg => msg
  | ErrAlreadyStarted => "already started"
  end.

(** [errors.Cause]: the error under the annotations. *)
Fixpoint Cause (e : error) : error :=
  match e with
  | ErrWithStack cause => Cause cause
  | _ => e
  end.

(** The class of an error as a caller of the store sees it: a bad request
    is the validation class (the client is at fault), everything else is
    an internal failure. *)
Definition is_validation_class (e : error) : bool :=
  match e with
  | ErrBadRequest _ => true
  | _ => false
  end.

End goerr.

(** ** Package validator: the composite validator *)

Module validator.
Import cs goerr.

Section Validator.

(** [store.SegmentReader], which [Validate] only passes on. *)
Context {SegmentReader : Type}.
(** [crypto/sha256.Sum256]. *)
Context (Sum256 : list Byte.byte → Bytes32).

(** The interface [Validator]: a value of it is the triple of its methods. *)
Record Validator : Type := {
  Validate : SegmentReader → Link → option error;
  ShouldValidate : Link → bool;
  Hash : Bytes32 + error;
}.

Record multiValidator : Type := {
  validators : list Validator;
}.

Definition multiValidator_ShouldValidate (v : multiValidator) (link : Link) : bool :=
  true.

(** The loop of [multiValidator.Hash]: [b] is the byte slice built so far. *)
Fixpoint Hash_loop (vs : list Validator) (b : list Byte.byte) : list Byte.byte + error :=
  match vs with
  | [] => inl b
  | validator :: rest =>
      match Hash validator with
      | inr err => inr (ErrWithStack err)
      | inl validatorHash => Hash_loop rest (b ++ Bytes32_slice validatorHash)
      end
  end.

Definition multiValidator_Hash (v : multiValidator) : Bytes32 + error :=
  match Hash_loop (validators v) [] with
  | inr err => inr err
  | inl b => inl (Sum256 b)
  end.

Fixpoint matchValidators_loop (vs : list Validator) (l : Link)
    (linkValidators : list Validator) : list Validator :=
  match vs with
  | [] => linkValidators
  | child :: rest =>
      if ShouldValidate child l
      then matchValidators_loop rest l (linkValidators ++ [child])
      else matchValidators_loop rest l linkValidators
  end.

Definition matchValidators (v : multiValidator) (l : Link) : list Validator :=
  matchValidators_loop (validators v) l [].

(** The message of the error for a link that no child claims. *)
Definition no_match_message (l : Link) : string :=
  "Validation failed: link with process: [" +:+ Process (Meta l)
  +:+ "] and type: [" +:+ Type_ (Meta l) +:+ "] does not match any validator".

Fixpoint Validate_loop (linkValidators : list Validator) (r : SegmentReader)
    (l : Link) : option error :=
  match linkValidators with
  | [] => None
  | child :: rest =>
      match Validate child r l with
      | Some err => Some err
      | None => Validate_loop rest r l
      end
  end.

Definition multiValidator_Validate (v : multiValidator) (r : SegmentReader)
    (l : Link) : option error :=
  let linkValidators := matchValidators v l in
  if decide (length linkValidators = 0)
  then Some (ErrNew (no_match_message l))
  else Validate_loop linkValidators r l.

(** [NewMultiValidator]: the composite seen through the interface. *)
Definition NewMultiValidator (vs : list Validator) : Validator :=
  let v := {| validators := vs |} in
  {| Validate := multiValidator_Validate v;
     ShouldValidate := multiValidator_ShouldValidate v;
     Hash := multiValidator_Hash v |}.

End Validator.

Arguments Validator : clear implicits.
Arguments multiValidator : clear implicits.

End validator.

(** ** Package store: events *)

Module store.
Import cs goerr.

(** [store.Event]: the event type together with its payload, which is a
    slice of links for [SavedLinks] and a map from the link hash (as a
    string) to the evidence for [SavedEvidences]. *)
Inductive Event : Type :=
| SavedLinks (links : list Link)
| SavedEvidences (evidences : gmap string Evidence).

(** Modelled from the spec: the constructors of package store are not
    under src/. The spec has a pending event as
    [{type: SavedLinks|SavedEvidences, payload}]: [NewSavedLinks] makes the
    [SavedLinks] event of the links it is given, in their order. *)
Definition NewSavedLinks (links : list Link) : Event := SavedLinks links.

(** Modelled from the spec: [NewSavedEvidences] is the [SavedEvidences]
    event with an empty payload. *)
Definition NewSavedEvidences : Event := SavedEvidences ∅.

(** Modelled from the spec: [AddSavedEvidence] records the evidence under
    the link hash; it leaves an event of the other type as it is. *)
Definition AddSavedEvidence (event : Event) (linkHash : string) (e : Evidence) : Event :=
  match event with
  | SavedEvidences evidences => SavedEvidences (<[linkHash := e]> evidences)
  | SavedLinks links => SavedLinks links
  end.

End store.

(** ** The ABCI and RPC result types that the client reads *)

Module abci.

(** [abci.CodeTypeOK]. Codes are [uint32]. *)
Definition CodeTypeOK : N := 0%N.

(** [abci.ResponseQuery]; [Value] is a byte slice that may be [nil]. *)
Record ResponseQuery : Type := {
  rq_Code : N;
  rq_Value : option (list Byte.byte);
  rq_Log : string;
}.

(** [abci.ResponseCheckTx] and [abci.ResponseDeliverTx], which the client
    reads in the same way. *)
Record ResponseTx : Type := {
  Code : N;
  Log : string;
}.

Definition IsOK (r : ResponseQuery) : bool := bool_decide (rq_Code r = CodeTypeOK).
Definition IsErr (r : ResponseTx) : bool := negb (bool_decide (Code r = CodeTypeOK)).

(** [ctypes.ResultABCIQuery]. *)
Record ResultABCIQuery : Type := {
  Response : ResponseQuery;
}.

(** [ctypes.ResultBroadcastTxCommit]. *)
Record ResultBroadcastTxCommit : Type := {
  CheckTx : ResponseTx;
  DeliverTx : ResponseTx;
}.

End abci.

(** ** Package tmstore: the store over a Tendermint client *)

Module tmstore.
Import cs goerr store abci.

(** The names of the queries of package tmpop that the store sends. *)
Inductive QueryPath : Type :=
| GetInfo_path | GetSegment_path | GetEvidences_path | AddEvidence_path
| FindSegments_path | GetMapIDs_path | PendingEvents_path.

#[global] Instance QueryPath_eq_dec : EqDecision QueryPath.
Proof. solve_decision. Defined.

(** The arguments the store passes to [sendQuery] (an [interface{}]). *)
Inductive QueryArgs : Type :=
| ArgNil
| ArgLinkHash (linkHash : Bytes32)
| ArgSegmentFilter (filter : string)
| ArgMapFilter (filter : string)
| ArgAddEvidence (linkHash : Bytes32) (evidence : Evidence).

(** [tmpop.Tx]; the store only builds [CreateLink] transactions. *)
Inductive TxType : Type := CreateLink_tx.

Record Tx : Type := {
  tx_TxType : TxType;
  tx_Link : Link;
  tx_LinkHash : Bytes32;
}.

(** Channels are identified by a number; what was sent on them is read
    off the trace. *)
Definition Chan : Type := nat.

(** [time.Duration], in nanoseconds. *)
Definition Duration : Type := Z.

Definition Name : string := "tm".
Definition DefaultWsRetryInterval : Duration := (5 * 1000000000)%Z.
Definition ErrAlreadySubscribed : string := "already subscribed".

(** The constants and functions of other packages that the store calls and
    that are not part of this development: the validation code of tmpop,
    the encoders and decoders, hashing of a link, and formatting.
    A decoder takes the bytes and the value its target holds before the
    call, and gives the value the target holds after it with the error. *)
Class Env : Type := {
  CodeTypeValidation : N;
  BuildQueryBinary : QueryArgs → list Byte.byte + error;
  json_Marshal_Tx : Tx → list Byte.byte + error;
  json_Unmarshal_Segment : list Byte.byte → Segment → Segment * option error;
  json_Unmarshal_SegmentSlice : list Byte.byte → list Segment → list Segment * option error;
  json_Unmarshal_Evidences : list Byte.byte → list Evidence → list Evidence * option error;
  json_Unmarshal_strings : list Byte.byte → list string → list string * option error;
  json_Unmarshal_Events : list Byte.byte → list Event → list Event * option error;
  Link_Hash : Link → Bytes32 + error;
  Segment_IsEmpty : Segment → bool;
  Bytes32_String : Bytes32 → string;
  (** [fmt.Sprintf] of a format string without operands. *)
  fmt_Sprintf0 : string → string;
  (** The [%v] rendering of a response. *)
  fmt_ResponseQuery : ResponseQuery → string;
}.

(** The interface [client.Client] of the Tendermint RPC client, as far as
    the store uses it. [C] is the state of the client (and of the node
    behind it); every call may change it. *)
Class Client (C : Type) : Type := {
  IsRunning : C → bool;
  Start : C → option error * C;
  Subscribe : string → Chan → C → option error * C;
  ABCIQuery : QueryPath → list Byte.byte → C
              → (option ResultABCIQuery * option error) * C;
  BroadcastTxCommit : list Byte.byte → C
              → (option ResultBroadcastTxCommit * option error) * C;
}.

(** What a run of the store does to the outside, in order. *)
Inductive Effect : Type :=
| CallStart
| CallSubscribe (subscriber : string) (out : Chan)
| CallABCIQuery (path : QueryPath) (query : list Byte.byte)
| CallBroadcastTxCommit (tx : list Byte.byte)
| MakeChan (c : Chan)
| GoForward (c : Chan)
| Send (c : Chan) (event : Event)
| Sleep (d : Duration).

(** [TMStore], with the client it points to, the trace of what it has done
    and the next free channel number. [tmEventChan] is [None] until
    [StartWebsocket] makes the channel. The [config] field is only read by
    [GetInfo] and is left out. *)
Record TMStore (C : Type) : Type := {
  tmEventChan : option Chan;
  storeEventChans : list Chan;
  tmClient : C;
  trace : list Effect;
  nextChan : Chan;
}.
Arguments tmEventChan {C} _.
Arguments storeEventChans {C} _.
Arguments tmClient {C} _.
Arguments trace {C} _.
Arguments nextChan {C} _.

(** The result of running a method: it returns, or the goroutine panics
    (a nil pointer dereference), or the model ran out of fuel in a loop
    that has no bound of its own. *)
Inductive outcome (A : Type) : Type :=
| Ok (a : A)
| Panic
| OutOfFuel.
Arguments Ok {A} a.
Arguments Panic {A}.
Arguments OutOfFuel {A}.

(** Methods are state transformers over the store. *)
Definition M (C A : Type) : Type := TMStore C → outcome (A * TMStore C).

#[global] Instance M_ret {C} : MRet (M C) := λ A a t, Ok (a, t).
#[global] Instance M_bind {C} : MBind (M C) := λ A B f m t,
  match m t with
  | Ok (a, t') => f a t'
  | Panic => Panic
  | OutOfFuel => OutOfFuel
  end.

Definition panic {C A} : M C A := λ _, Panic.

Section Store.
Context `{env : Env} `{client : Client C}.

Definition emit (e : Effect) : M C unit := λ t,
  Ok (tt, {| tmEventChan := tmEventChan t; storeEventChans := storeEventChans t;
             tmClient := tmClient t; trace := trace t ++ [e];
             nextChan := nextChan t |}).

Definition set_client (c : C) : M C unit := λ t,
  Ok (tt, {| tmEventChan := tmEventChan t; storeEventChans := storeEventChans t;
             tmClient := c; trace := trace t; nextChan := nextChan t |}).

(** A call on the client: recorded in the trace, answered by the client. *)
Definition call {A} (e : Effect) (method : C → A * C) : M C A := λ t,
  let '(a, c) := method (tmClient t) in
  (_ ← emit e; _ ← set_client c; mret a) t.

(** The store after a call on the client that was recorded as [e] and
    left the client in state [c]; and the store after further effects. *)
Definition after_call (t : TMStore C) (e : Effect) (c : C) : TMStore C :=
  {| tmEventChan := tmEventChan t; storeEventChans := storeEventChans t;
     tmClient := c; trace := trace t ++ [e]; nextChan := nextChan t |}.

Definition after_effects (t : TMStore C) (es : list Effect) : TMStore C :=
  {| tmEventChan := tmEventChan t; storeEventChans := storeEventChans t;
     tmClient := tmClient t; trace := trace t ++ es; nextChan := nextChan t |}.

(** [make(chan interface{}, 10)] assigned to [t.tmEventChan]. *)
Definition make_tmEventChan : M C Chan := λ t,
  let c := nextChan t in
  Ok (c, {| tmEventChan := Some c; storeEventChans := storeEventChans t;
            tmClient := tmClient t; trace := trace t ++ [MakeChan c];
            nextChan := S c |}).

Definition get_storeEventChans : M C (list Chan) := λ t, Ok (storeEventChans t, t).
Definition client_IsRunning : M C bool := λ t, Ok (IsRunning (tmClient t), t).

(** [for _, c := range chans { c <- event }]. *)
Fixpoint send_all (chans : list Chan) (event : Event) : M C unit :=
  match chans with
  | [] => mret tt
  | c :: rest => _ ← emit (Send c event); send_all rest event
  end.

(** [AddStoreEventChannel]. *)
Definition AddStoreEventChannel (storeChan : Chan) : M C unit := λ t,
  Ok (tt, {| tmEventChan := tmEventChan t;
             storeEventChans := storeEventChans t ++ [storeChan];
             tmClient := tmClient t; trace := trace t; nextChan := nextChan t |}).

(** [sendQuery]: the named results are [(res, err)], and [res] stays [nil]
    on every path but the last. *)
Definition sendQuery (name : QueryPath) (args : QueryArgs)
    : M C (option ResponseQuery * option error) :=
  match BuildQueryBinary args with
  | inr err => mret (None, Some err)
  | inl query =>
      '(response, err) ← call (CallABCIQuery name query) (ABCIQuery name query);
      match err with
      | Some e => mret (None, Some e)
      | None =>
          match response with
          | None => panic
          | Some response =>
              if negb (IsOK (Response response))
              then mret (None, Some (ErrNew ("NOK Response from TMPop: "
                                             +:+ fmt_ResponseQuery (Response response))))
              else mret (Some (Response response), None)
          end
      end
  end.

(** The zero values the decoders start from. *)
Definition zero_Link : Link :=
  {| State := ""; Meta := {| MapID := ""; Process := ""; Type_ := ""; Refs := [] |};
     Signatures := [] |}.
Definition zero_Segment : Segment :=
  {| seg_Link := zero_Link; seg_Meta := {| LinkHash := ""; Evidences := [] |} |}.

(** A byte slice as [json.Unmarshal] reads it: [nil] is the empty input. *)
Definition bytes_of (v : option (list Byte.byte)) : list Byte.byte := default [] v.

(** [GetSegment]: the result is the pair [(segment, err)]. *)
Definition GetSegment (linkHash : Bytes32) : M C (option Segment * option error) :=
  '(response, err) ← sendQuery GetSegment_path (ArgLinkHash linkHash);
  match err with
  | Some e => mret (None, Some e)
  | None =>
      match response with
      | None => panic
      | Some response =>
          match rq_Value response with
          | None => mret (None, None)
          | Some value =>
              let '(segment, err) := json_Unmarshal_Segment value zero_Segment in
              match err with
              | Some e => mret (Some segment, Some e)
              | None =>
                  if Segment_IsEmpty segment then mret (None, None)
                  else mret (Some segment, None)
              end
          end
      end
  end.

(** [GetEvidences]: [evidences] is never nil, it starts as the empty
    collection. *)
Definition GetEvidences (linkHash : Bytes32) : M C (list Evidence * option error) :=
  '(response, err) ← sendQuery GetEvidences_path (ArgLinkHash linkHash);
  match err with
  | Some e => mret ([], Some e)
  | None =>
      match response with
      | None => panic
      | Some response =>
          match rq_Value response with
          | None => mret ([], None)
          | Some value => mret (json_Unmarshal_Evidences value [])
          end
      end
  end.

(** [FindSegments]. *)
Definition FindSegments (filter : string) : M C (list Segment * option error) :=
  '(response, err) ← sendQuery FindSegments_path (ArgSegmentFilter filter);
  match err with
  | Some e => mret ([], Some e)
  | None =>
      match response with
      | None => panic
      | Some response =>
          mret (json_Unmarshal_SegmentSlice (bytes_of (rq_Value response)) [])
      end
  end.

(** [GetMapIDs]: the error of [sendQuery] is overwritten by the error of
    the decoder without having been read, and [response.Value] is read
    whatever [sendQuery] returned. *)
Definition GetMapIDs (filter : string) : M C (list string * option error) :=
  '(response, _) ← sendQuery GetMapIDs_path (ArgMapFilter filter);
  match response with
  | None => panic
  | Some response =>
      mret (json_Unmarshal_strings (bytes_of (rq_Value response)) [])
  end.

(** [for _, event := range pendingEvents { for _, c := range chans { c <- event } }]. *)
Fixpoint fan_out (pendingEvents : list Event) (chans : list Chan) : M C unit :=
  match pendingEvents with
  | [] => mret tt
  | event :: rest => _ ← send_all chans event; fan_out rest chans
  end.

(** [notifyStoreChans]: a failed query is logged, and [response.Value] is
    read all the same. *)
Definition notifyStoreChans : M C unit :=
  '(response, _) ← sendQuery PendingEvents_path ArgNil;
  match response with
  | None => panic
  | Some response =>
      let '(pendingEvents, _) :=
        json_Unmarshal_Events (bytes_of (rq_Value response)) [] in
      chans ← get_storeEventChans;
      fan_out pendingEvents chans
  end.

(** [broadcastTx]. *)
Definition broadcastTx (tx : Tx) : M C (option ResultBroadcastTxCommit * option error) :=
  match json_Marshal_Tx tx with
  | inr err => mret (None, Some err)
  | inl txBytes =>
      '(result, err) ← call (CallBroadcastTxCommit txBytes) (BroadcastTxCommit txBytes);
      match err with
      | Some e => mret (None, Some e)
      | None =>
          match result with
          | None => panic
          | Some result =>
              if IsErr (CheckTx result) then
                if decide (Code (CheckTx result) = CodeTypeValidation)
                then mret (None, Some (ErrBadRequest (Log (CheckTx result))))
                else mret (None, Some (ErrNew (fmt_Sprintf0 (Log (CheckTx result)))))
              else if IsErr (DeliverTx result) then
                mret (None, Some (ErrNew (fmt_Sprintf0 (Log (DeliverTx result)))))
              else mret (Some result, None)
          end
      end
  end.

(** [CreateLink]: the result is the pair [(linkHash, err)]. *)
Definition CreateLink (link : Link) : M C (option Bytes32 * option error) :=
  match Link_Hash link with
  | inr err => mret (None, Some err)
  | inl linkHash =>
      let tx := {| tx_TxType := CreateLink_tx; tx_Link := link; tx_LinkHash := linkHash |} in
      '(_, err) ← broadcastTx tx;
      mret (Some linkHash, err)
  end.

(** [AddEvidence]. *)
Definition AddEvidence (linkHash : Bytes32) (evidence : Evidence) : M C (option error) :=
  '(_, err) ← sendQuery AddEvidence_path (ArgAddEvidence linkHash evidence);
  match err with
  | Some e => mret (Some e)
  | None =>
      let evidenceEvent := NewSavedEvidences in
      let evidenceEvent := AddSavedEvidence evidenceEvent (Bytes32_String linkHash) evidence in
      chans ← get_storeEventChans;
      _ ← send_all chans evidenceEvent;
      mret None
  end.

(** The first block of [StartWebsocket]: the client is started when it is
    not running, and [ErrAlreadyStarted] is no failure. The result is the
    error with which [StartWebsocket] returns at this point, if it does. *)
Definition start_client : M C (option error) :=
  running ← client_IsRunning;
  if negb running then
    err ← call CallStart Start;
    match err with
    | Some e => if decide (e = ErrAlreadyStarted) then mret None else mret (Some e)
    | None => mret None
    end
  else mret None.

(** [StartWebsocket]. The goroutine that forwards the block events is
    recorded as started ([GoForward]); what it does on an event is
    [notifyStoreChans]. *)
Definition StartWebsocket : M C (option error) :=
  started ← start_client;
  match started with
  | Some e => mret (Some e)
  | None =>
      c ← make_tmEventChan;
      _ ← emit (GoForward c);
      err ← call (CallSubscribe Name c) (Subscribe Name c);
      match err with
      | Some e =>
          if decide (Error e = ErrAlreadySubscribed) then mret None else mret (Some e)
      | None => mret None
      end
  end.

(** Modelled from the spec: the error of [utils.Retry] for a bounded
    retry that used up its attempts; package utils is not under src/. *)
Definition errMaxRetriesReached : error := ErrNew "exceeded retry limit".

(** Modelled from the spec: the loop of [utils.Retry], which is not under
    src/ (only its callers are). The spec has the call retried on any
    transient error, with no bound when the caller gives none: the
    callback is run with the number of the attempt; the loop ends when the
    callback says not to retry or returns no error, and with a positive
    [maxTries] also when the attempts are used up. The loop has no bound
    of its own, so the model takes fuel: one unit per attempt. *)
Fixpoint Retry_from (fuel : nat) (cb : nat → M C (bool * option error))
    (maxTries attempt : nat) : M C (option error) :=
  match fuel with
  | O => λ _, OutOfFuel
  | S fuel' =>
      '(cont, err) ← cb attempt;
      if negb cont || bool_decide (err = None) then mret err
      else if bool_decide (0 < maxTries) && bool_decide (maxTries < S attempt)
      then mret (Some errMaxRetriesReached)
      else Retry_from fuel' cb maxTries (S attempt)
  end.

(** Modelled from the spec: [utils.Retry], the loop started at the first
    attempt. *)
Definition Retry (fuel : nat) (cb : nat → M C (bool * option error)) (maxTries : nat)
    : M C (option error) :=
  Retry_from fuel cb maxTries 1.

(** The callback that [RetryStartWebsocket] passes to [utils.Retry]. *)
Definition RetryStartWebsocket_attempt (interval : Duration) (attempt : nat)
    : M C (bool * option error) :=
  err ← StartWebsocket;
  match err with
  | Some e =>
      if decide (Error e = ErrAlreadySubscribed) then mret (false, None)
      else _ ← emit (Sleep interval); mret (true, Some e)
  | None => mret (true, None)
  end.

(** [RetryStartWebsocket]. *)
Definition RetryStartWebsocket (fuel : nat) (interval : Duration) : M C (option error) :=
  Retry fuel (RetryStartWebsocket_attempt interval) 0.

(** An attempt counts as a success when [StartWebsocket] returns no error
    or the error "already subscribed". *)
Definition attempt_ok (r : option error) : bool :=
  match r with
  | None => true
  | Some e => bool_decide (Error e = ErrAlreadySubscribed)
  end.

(** [attempts interval k t t']: from the store [t], [StartWebsocket] fails
    [k] times in a row, each failure followed by the pause, and then
    succeeds, leaving the store [t']. *)
Inductive attempts (interval : Duration) : nat → TMStore C → TMStore C → Prop :=
| attempts_last t r t' :
    StartWebsocket t = Ok (r, t') → attempt_ok r = true →
    attempts interval 0 t t'
| attempts_retry k t e t1 t' :
    StartWebsocket t = Ok (Some e, t1) → attempt_ok (Some e) = false →
    attempts interval k (after_effects t1 [Sleep interval]) t' →
    attempts interval (S k) t t'.

(** [never_connects interval P]: from every store in [P], [StartWebsocket]
    fails and the store after the pause is in [P] again. *)
Definition never_connects (interval : Duration) (P : TMStore C → Prop) : Prop :=
  ∀ t, P t →
    ∃ e t1, StartWebsocket t = Ok (Some e, t1) ∧ attempt_ok (Some e) = false
            ∧ P (after_effects t1 [Sleep interval]).

Definition is_Sleep (e : Effect) : bool :=
  match e with
  | Sleep _ => true
  | _ => false
  end.

End Store.

End tmstore.

(** ** Package postgresstore: the batch *)

Module postgresstore.
Import cs goerr store.

Definition Chan : Type := nat.

(** [database/sql.Tx] over a table of links: the rows written inside the
    transaction are [tx_rows]; [Commit] makes them visible together or,
    when the database refuses ([tx_fate] is the error it will answer),
    not at all; a transaction that is over answers [ErrTxDone]. *)
Record SqlTx : Type := {
  tx_rows : list Link;
  tx_fate : option error;
  tx_over : bool;
}.

Definition ErrTxDone : error :=
  ErrNew "sql: transaction has already been committed or rolled back".

(** The database and the channels, as the batch sees them. *)
Record World : Type := {
  table : list Link;
  sent : list (Chan * Event);
}.

(** [tx.Commit()]. *)
Definition Commit (tx : SqlTx) (w : World) : option error * SqlTx * World :=
  if tx_over tx then (Some ErrTxDone, tx, w)
  else
    let tx' := {| tx_rows := tx_rows tx; tx_fate := tx_fate tx; tx_over := true |} in
    match tx_fate tx with
    | Some err => (Some err, tx', w)
    | None => (None, tx', {| table := table w ++ tx_rows tx; sent := sent w |})
    end.

Section Batch.

(** The prepared statements of the batch and the writer that runs them
    inside the transaction; they live in files that are not part of this
    development. *)
Context {Stmts : Type}.
Context (newBatchStmts : SqlTx → Stmts + error).
Context (writer_CreateLink : Stmts → Link → SqlTx → (option Bytes32 * option error) * SqlTx).

Record Batch : Type := {
  stmts : Stmts;
  Links : list Link;
  eventChans : list Chan;
  done : bool;
  tx : SqlTx;
}.

(** [NewBatch]. *)
Definition NewBatch (tx : SqlTx) (eventChans : list Chan) : Batch + error :=
  match newBatchStmts tx with
  | inr err => inr err
  | inl stmts =>
      inl {| stmts := stmts; Links := []; eventChans := eventChans;
             done := false; tx := tx |}
  end.

(** [Batch.CreateLink]: the link is appended before the writer runs. *)
Definition CreateLink (b : Batch) (link : Link)
    : (option Bytes32 * option error) * Batch :=
  let links := Links b ++ [link] in
  let '(res, tx') := writer_CreateLink (stmts b) link (tx b) in
  (res, {| stmts := stmts b; Links := links; eventChans := eventChans b;
           done := done b; tx := tx' |}).

(** [for _, c := range b.eventChans { c <- store.NewSavedLinks(b.Links...) }]. *)
Fixpoint push_all (chans : list Chan) (links : list Link) (w : World) : World :=
  match chans with
  | [] => w
  | c :: rest =>
      push_all rest links
        {| table := table w; sent := sent w ++ [(c, NewSavedLinks links)] |}
  end.

(** [Batch.Write]. *)
Definition Write (b : Batch) (w : World) : option error * Batch * World :=
  let '(err, tx', w') := Commit (tx b) w in
  let b' := {| stmts := stmts b; Links := Links b; eventChans := eventChans b;
               done := true; tx := tx' |} in
  match err with
  | Some e => (Some e, b', w')
  | None => (None, b', push_all (eventChans b) (Links b) w')
  end.

(** A batch used as its callers use it: the links are created one after
    the other, whatever each call answers. *)
Fixpoint CreateLinks (b : Batch) (links : list Link) : Batch :=
  match links with
  | [] => b
  | link :: rest => CreateLinks (snd (CreateLink b link)) rest
  end.

End Batch.

Arguments Batch : clear implicits.

End postgresstore.

(** ** Package tmpop: the consensus state machine

    The application itself is not part of the sources at hand (its test
    cases are): it is modelled from the specification. *)

Module tmpop.
Import cs goerr store.

(** Modelled from the spec: the application of package tmpop is not under
    src/. The two visibility scopes of the reference resolver. *)
Inductive Scope : Type := CommittedScope | CommittedAndCheckedScope.

(** Modelled from the spec: the two validation phases. *)
Inductive Phase : Type := Speculative | Final.

(** Modelled from the spec: the states of the machine. *)
Inductive Mode : Type := Idle | BlockOpen.

(** Modelled from the spec: the error taxonomy of a rejected transaction;
    content and reference errors are both validation errors. *)
Inductive RejectReason : Type :=
| DecodingError
| ContentError (reason : string)
| ReferenceError (missing : SegmentReference).

(** Modelled from the spec: the response codes, [OK], the distinguished
    validation code, and another failure code. The test cases under src/
    name the validation code [CodeTypeValidation]. *)
Inductive ResponseCode : Type := CodeOK | CodeTypeValidation | CodeOther.

(** Modelled from the spec: the code of a rejection; content and
    reference errors carry the validation code. *)
Definition code_of (r : RejectReason) : ResponseCode :=
  match r with
  | DecodingError => CodeOther
  | ContentError _ => CodeTypeValidation
  | ReferenceError _ => CodeTypeValidation
  end.

(** Modelled from the spec: the answer to a transaction. *)
Inductive TxResult : Type := Accept | Reject (reason : RejectReason).

(** Modelled from the spec: the code of the response to a transaction. *)
Definition result_code (r : TxResult) : ResponseCode :=
  match r with
  | Accept => CodeOK
  | Reject reason => code_of reason
  end.

(** Modelled from the spec: the state of one node. [committed] is the
    durable store, [staged] the links delivered in the block in progress
    (in delivery order), [checked] the checked-set, [pending] the events
    that the next drain returns, [digest] the app hash. *)
Record State (Digest : Type) : Type := {
  mode : Mode;
  committed : gmap string Segment;
  staged : list Link;
  checked : gset string;
  pending : list Event;
  digest : Digest;
}.
Arguments mode {Digest} _.
Arguments committed {Digest} _.
Arguments staged {Digest} _.
Arguments checked {Digest} _.
Arguments pending {Digest} _.
Arguments digest {Digest} _.

Section App.

Context {Digest : Type}.
(** The hash of a link, as a string; the rule engine; the decoder of
    create-link transactions ([None] is a malformed transaction); the
    combination of the previous digest with the hashes committed by a
    block. All four are collaborators of the state machine. *)
Context (linkHash : Link → string).
Context (validate : Link → option string).
Context (decode : list Byte.byte → option Link).
Context (combine : Digest → list string → Digest).

Implicit Types (s : State Digest) (link : Link) (h : string).

(** Modelled from the spec: a hash is in the committed scope when a link
    with that hash is durably committed or was delivered earlier in the
    block in progress; the other scope adds the checked-set. *)
Definition in_scope s (scope : Scope) h : bool :=
  bool_decide (h ∈ dom (committed s))
  || bool_decide (h ∈ linkHash <$> staged s)
  || match scope with
     | CommittedScope => false
     | CommittedAndCheckedScope => bool_decide (h ∈ checked s)
     end.

(** Modelled from the spec: [resolve(link, scope)], the first declared
    reference that the scope does not satisfy, if any. *)
Fixpoint resolve_refs s (scope : Scope) (refs : list SegmentReference)
    : option SegmentReference :=
  match refs with
  | [] => None
  | ref :: rest =>
      if in_scope s scope (ref_LinkHash ref) then resolve_refs s scope rest
      else Some ref
  end.

(** Modelled from the spec: [resolve] on the references that the link
    declares. *)
Definition resolve s link (scope : Scope) : option SegmentReference :=
  resolve_refs s scope (Refs (Meta link)).

(** Modelled from the spec: the scope of each phase. *)
Definition scope_of (phase : Phase) : Scope :=
  match phase with
  | Speculative => CommittedAndCheckedScope
  | Final => CommittedScope
  end.

(** Modelled from the spec: the admission of a link in a phase, the rule engine first,
    then the references under the scope of the phase. *)
Definition admit_link s link (phase : Phase) : option RejectReason :=
  match validate link with
  | Some reason => Some (ContentError reason)
  | None =>
      match resolve s link (scope_of phase) with
      | Some missing => Some (ReferenceError missing)
      | None => None
      end
  end.

(** Modelled from the spec: [BeginBlock]. *)
Definition BeginBlock s : State Digest :=
  {| mode := BlockOpen; committed := committed s; staged := staged s;
     checked := checked s; pending := pending s; digest := digest s |}.

(** Modelled from the spec: [CheckTransaction]. *)
Definition CheckTransaction (txBytes : list Byte.byte) s : TxResult * State Digest :=
  match decode txBytes with
  | None => (Reject DecodingError, s)
  | Some link =>
      match admit_link s link Speculative with
      | Some reason => (Reject reason, s)
      | None =>
          (Accept,
           {| mode := mode s; committed := committed s; staged := staged s;
              checked := {[linkHash link]} ∪ checked s;
              pending := pending s; digest := digest s |})
      end
  end.

(** Modelled from the spec: [DeliverTransaction]. *)
Definition DeliverTransaction (txBytes : list Byte.byte) s : TxResult * State Digest :=
  match decode txBytes with
  | None => (Reject DecodingError, s)
  | Some link =>
      match admit_link s link Final with
      | Some reason => (Reject reason, s)
      | None =>
          (Accept,
           {| mode := mode s; committed := committed s;
              staged := staged s ++ [link];
              checked := checked s; pending := pending s; digest := digest s |})
      end
  end.

(** Modelled from the spec: the segment under which a committed link is
    stored, the link with its hash and no evidence yet. *)
Definition segment_of link : Segment :=
  {| seg_Link := link;
     seg_Meta := {| LinkHash := linkHash link; Evidences := [] |} |}.

(** Modelled from the spec: the staged links written to the committed
    store, in delivery order. *)
Fixpoint flush (links : list Link) (m : gmap string Segment) : gmap string Segment :=
  match links with
  | [] => m
  | link :: rest => flush rest (<[linkHash link := segment_of link]> m)
  end.

(** Modelled from the spec: [Commit]. Without deliveries it is a no-op
    that returns the unchanged digest; otherwise the staged links are
    flushed, the digest is recomputed, the staged and checked state is
    cleared and the event of the block becomes retrievable. *)
Definition Commit s : Digest * State Digest :=
  match staged s with
  | [] =>
      (digest s,
       {| mode := Idle; committed := committed s; staged := [];
          checked := checked s; pending := pending s; digest := digest s |})
  | _ :: _ =>
      let digest' := combine (digest s) (linkHash <$> staged s) in
      (digest',
       {| mode := Idle; committed := flush (staged s) (committed s);
          staged := []; checked := ∅;
          pending := pending s ++ [NewSavedLinks (staged s)];
          digest := digest' |})
  end.

(** Modelled from the spec: the query [drain-pending-events] returns the
    events since the last drain and discards them. *)
Definition DrainPendingEvents s : list Event * State Digest :=
  (pending s,
   {| mode := mode s; committed := committed s; staged := staged s;
      checked := checked s; pending := []; digest := digest s |}).

(** Modelled from the spec: the query [get-segment-by-hash]. *)
Definition GetSegment h s : option Segment := committed s !! h.

(** The transactions of a block, delivered in order. *)
Fixpoint DeliverBlock (txs : list (list Byte.byte)) s : list TxResult * State Digest :=
  match txs with
  | [] => ([], s)
  | txBytes :: rest =>
      let '(r, s') := DeliverTransaction txBytes s in
      let '(rs, s'') := DeliverBlock rest s' in
      (r :: rs, s'')
  end.

(** The links of the transactions that a block accepted, in order. *)
Fixpoint accepted_links (txs : list (list Byte.byte)) (rs : list TxResult) : list Link :=
  match txs, rs with
  | txBytes :: txs', Accept :: rs' =>
      match decode txBytes with
      | Some link => link :: accepted_links txs' rs'
      | None => accepted_links txs' rs'
      end
  | _ :: txs', Reject _ :: rs' => accepted_links txs' rs'
  | _, _ => []
  end.

End App.

End tmpop.

(** ** Sample collaborators

    Small concrete links, codecs, clients and states, on which the
    embedded functions can be run. *)

Module samples.
Import cs goerr store abci.

Definition hash_a : Bytes32 := vreplicate 32 Byte.x0a.
Definition hash_b : Bytes32 := vreplicate 32 Byte.x0b.

(** A stand-in for SHA-256 that can be run: the first byte, repeated. *)
Definition first_byte_digest (b : list Byte.byte) : Bytes32 :=
  vreplicate 32 (hd Byte.x00 b).

Definition link_a : Link :=
  {| State := "a";
     Meta := {| MapID := "m"; Process := "p"; Type_ := "sell"; Refs := [] |};
     Signatures := [] |}.

(** A link of the same process that refers to [link_a]. *)
Definition link_b : Link :=
  {| State := "b";
     Meta := {| MapID := "m"; Process := "p"; Type_ := "sell";
                Refs := [ {| ref_Process := "p"; ref_LinkHash := "a" |} ] |};
     Signatures := [] |}.

(** A link of a process that no sample validator knows. *)
Definition link_q : Link :=
  {| State := "q";
     Meta := {| MapID := "m"; Process := "q"; Type_ := "buy"; Refs := [] |};
     Signatures := [] |}.

Definition evidence_1 : Evidence :=
  {| Backend := "dummy"; Provider := "1"; Proof_ := "" |}.

(** *** Validators *)

Definition claims_p (l : Link) : bool := bool_decide (Process (Meta l) = "p").

Definition accepting : validator.Validator unit :=
  {| validator.Validate := λ _ _, None;
     validator.ShouldValidate := claims_p;
     validator.Hash := inl hash_a |}.

Definition rejecting : validator.Validator unit :=
  {| validator.Validate := λ _ _, Some (ErrNew "bad state");
     validator.ShouldValidate := claims_p;
     validator.Hash := inl hash_b |}.

Definition hashless : validator.Validator unit :=
  {| validator.Validate := λ _ _, None;
     validator.ShouldValidate := λ _, false;
     validator.Hash := inr (ErrNew "no hash") |}.

(** *** The store and a scripted client *)

Definition sample_env : tmstore.Env :=
  {| tmstore.CodeTypeValidation := 400%N;
     tmstore.BuildQueryBinary := λ _, inl [];
     tmstore.json_Marshal_Tx := λ _, inl [];
     tmstore.json_Unmarshal_Segment := λ _ target, (target, None);
     tmstore.json_Unmarshal_SegmentSlice := λ _ target, (target, None);
     tmstore.json_Unmarshal_Evidences := λ _ target, (target, None);
     tmstore.json_Unmarshal_strings := λ _ target, (target, None);
     tmstore.json_Unmarshal_Events := λ _ target, (target, None);
     tmstore.Link_Hash := λ _, inl hash_a;
     tmstore.Segment_IsEmpty := λ segment, bool_decide (segment = tmstore.zero_Segment);
     tmstore.Bytes32_String := λ _, "0a";
     tmstore.fmt_Sprintf0 := λ format, format;
     tmstore.fmt_ResponseQuery := rq_Log |}.

(** A client that answers from a script: [Subscribe] answers with the
    head of [subscribe_script] and, when the script is used up, with
    [subscribe_default]; the other calls always answer the same. *)
Record Script : Type := {
  running : bool;
  start_answer : option error;
  subscribe_script : list (option error);
  subscribe_default : option error;
  query_answer : option ResultABCIQuery * option error;
  broadcast_answer : option ResultBroadcastTxCommit * option error;
}.

Definition script_Subscribe (c : Script) : option error * Script :=
  match subscribe_script c with
  | [] => (subscribe_default c, c)
  | answer :: rest =>
      (answer,
       {| running := running c; start_answer := start_answer c;
          subscribe_script := rest; subscribe_default := subscribe_default c;
          query_answer := query_answer c; broadcast_answer := broadcast_answer c |})
  end.

Definition script_client : tmstore.Client Script :=
  {| tmstore.IsRunning := running;
     tmstore.Start := λ c, (start_answer c, c);
     tmstore.Subscribe := λ _ _ c, script_Subscribe c;
     tmstore.ABCIQuery := λ _ _ c, (query_answer c, c);
     tmstore.BroadcastTxCommit := λ _ c, (broadcast_answer c, c) |}.

Definition ok_query (value : option (list Byte.byte)) : option ResultABCIQuery * option error :=
  (Some {| Response := {| rq_Code := 0%N; rq_Value := value; rq_Log := "" |} |}, None).

Definition ok_tx : ResponseTx := {| Code := 0%N; Log := "" |}.

Definition committed_answer : option ResultBroadcastTxCommit * option error :=
  (Some {| CheckTx := ok_tx; DeliverTx := ok_tx |}, None).

(** A running client that answers everything with success. *)
Definition healthy : Script :=
  {| running := true; start_answer := None; subscribe_script := [];
     subscribe_default := None; query_answer := ok_query None;
     broadcast_answer := committed_answer |}.

(** A client whose connection is down for queries. *)
Definition unreachable : Script :=
  {| running := true; start_answer := None; subscribe_script := [];
     subscribe_default := None;
     query_answer := (None, Some (ErrNew "connection refused"));
     broadcast_answer := committed_answer |}.

(** A client behind which the state machine rejects the transaction with
    the given responses. *)
Definition answering (result : ResultBroadcastTxCommit) : Script :=
  {| running := true; start_answer := None; subscribe_script := [];
     subscribe_default := None; query_answer := ok_query None;
     broadcast_answer := (Some result, None) |}.

(** The responses of a transaction that the check phase rejects with the
    validation code. *)
Definition rejected_at_check : ResultBroadcastTxCommit :=
  {| CheckTx := {| Code := 400%N; Log := "reference not found" |};
     DeliverTx := ok_tx |}.

(** A client whose subscription is refused twice and then accepted, one
    that is subscribed already, and one that never accepts. *)
Definition refused : option error := Some (ErrNew "connection refused").

Definition flaky : Script :=
  {| running := false; start_answer := None;
     subscribe_script := [refused; refused]; subscribe_default := None;
     query_answer := ok_query None; broadcast_answer := committed_answer |}.

Definition subscribed : Script :=
  {| running := true; start_answer := None; subscribe_script := [];
     subscribe_default := Some (ErrNew "already subscribed");
     query_answer := ok_query None; broadcast_answer := committed_answer |}.

Definition down : Script :=
  {| running := true; start_answer := None; subscribe_script := [];
     subscribe_default := refused;
     query_answer := ok_query None; broadcast_answer := committed_answer |}.

(** A store with two registered channels over the given client. *)
Definition store_over (c : Script) : tmstore.TMStore Script :=
  {| tmstore.tmEventChan := None; tmstore.storeEventChans := [0; 1];
     tmstore.tmClient := c; tmstore.trace := []; tmstore.nextChan := 2 |}.


(** *** The batch *)

Definition sample_newBatchStmts (sqltx : postgresstore.SqlTx) : unit + error := inl tt.

Definition sample_writer (_ : unit) (link : Link) (sqltx : postgresstore.SqlTx)
    : (option Bytes32 * option error) * postgresstore.SqlTx :=
  ((Some hash_a, None),
   {| postgresstore.tx_rows := postgresstore.tx_rows sqltx ++ [link];
      postgresstore.tx_fate := postgresstore.tx_fate sqltx;
      postgresstore.tx_over := postgresstore.tx_over sqltx |}).

(** A writer that refuses the links of process [q] before it writes. *)
Definition picky_writer (_ : unit) (link : Link) (sqltx : postgresstore.SqlTx)
    : (option Bytes32 * option error) * postgresstore.SqlTx :=
  if bool_decide (Process (Meta link) = "q")
  then ((None, Some (ErrNew "cannot hash link")), sqltx)
  else sample_writer tt link sqltx.

Definition open_tx (fate : option error) : postgresstore.SqlTx :=
  {| postgresstore.tx_rows := []; postgresstore.tx_fate := fate;
     postgresstore.tx_over := false |}.

Definition empty_world : postgresstore.World :=
  {| postgresstore.table := []; postgresstore.sent := [] |}.

(** *** The state machine *)

(** The hash of a sample link is its state; every link passes the rule
    engine; the transactions [[1]] and [[2]] hold the two sample links. *)
Definition sample_linkHash (link : Link) : string := State link.
Definition sample_validate (link : Link) : option string := None.
Definition sample_decode (txBytes : list Byte.byte) : option Link :=
  match txBytes with
  | [Byte.x01] => Some link_a
  | [Byte.x02] => Some link_b
  | _ => None
  end.
Definition sample_combine (d : nat) (hashes : list string) : nat := d + length hashes.

Definition genesis : tmpop.State nat :=
  {| tmpop.mode := tmpop.Idle; tmpop.committed := ∅; tmpop.staged := [];
     tmpop.checked := ∅; tmpop.pending := []; tmpop.digest := 0 |}.

End samples.

(** ** Package tmstore, continued: GetInfo and StopWebsocket *)

Module tmstore_ext.
Import cs goerr store abci tmstore.

Definition Description : string := "Indigo's Tendermint Store".

(** [tmstore.Config]. *)
Record Config : Type := {
  Version : string;
  Commit : string;
}.

(** [tmstore.Info]; [TMAppInfo] holds the decoded information of the
    application. *)
Record Info (AppInfo : Type) : Type := {
  info_Name : string;
  info_Description : string;
  info_TMAppInfo : AppInfo;
  info_Version : string;
  info_Commit : string;
}.
Arguments info_Name {AppInfo} _.
Arguments info_Description {AppInfo} _.
Arguments info_TMAppInfo {AppInfo} _.
Arguments info_Version {AppInfo} _.
Arguments info_Commit {AppInfo} _.

(** The calls of [StopWebsocket] on the client, in order. *)
Inductive StopCall : Type :=
| CallUnsubscribeAll (subscriber : string)
| CallStop.

(** The two methods of [client.Client] that only [StopWebsocket] uses. *)
Class Stopper (C : Type) : Type := {
  UnsubscribeAll : string → C → option error * C;
  Stop : C → option error * C;
}.

(** The store with another state of its client. *)
Definition with_client {C} (t : TMStore C) (c : C) : TMStore C :=
  {| tmEventChan := tmEventChan t; storeEventChans := storeEventChans t;
     tmClient := c; trace := trace t; nextChan := nextChan t |}.

(** What an operation that only reads may do: it leaves the registered
    channels alone and adds to the trace at most one query, on the given
    path. *)
Definition read_only {C} (path : QueryPath) (t t' : TMStore C) : Prop :=
  storeEventChans t' = storeEventChans t
  ∧ tmEventChan t' = tmEventChan t
  ∧ ∃ new, trace t' = trace t ++ new
           ∧ (new = [] ∨ ∃ query, new = [CallABCIQuery path query]).

Section Ext.
Context `{env : Env} `{client : Client C} `{stopper : Stopper C}.

(** [tmpop.Info] with its zero value and its decoder, and the sentinel
    [tmcommon.ErrAlreadyStopped], which the code compares by identity. *)
Context {AppInfo : Type} (zero_AppInfo : AppInfo).
Context (json_Unmarshal_Info : list Byte.byte → AppInfo → AppInfo * option error).
Context (ErrAlreadyStopped : error).

(** [GetInfo]; [config] is the field [t.config]. *)
Definition GetInfo (config : Config) : M C (option (Info AppInfo) * option error) :=
  '(response, err) ← sendQuery GetInfo_path ArgNil;
  match err with
  | Some e => mret (None, Some e)
  | None =>
      match response with
      | None => panic
      | Some response =>
          let '(info, err) :=
            json_Unmarshal_Info (bytes_of (rq_Value response)) zero_AppInfo in
          match err with
          | Some e => mret (None, Some e)
          | None =>
              mret (Some {| info_Name := Name; info_Description := Description;
                            info_TMAppInfo := info;
                            info_Version := Version config;
                            info_Commit := Commit config |}, None)
          end
      end
  end.

(** [StopWebsocket]: the result is the error, with the calls made on the
    client. *)
Definition StopWebsocket (t : TMStore C) : (option error * list StopCall) * TMStore C :=
  let '(err, c1) := UnsubscribeAll Name (tmClient t) in
  match err with
  | Some e => ((Some e, [CallUnsubscribeAll Name]), with_client t c1)
  | None =>
      if IsRunning c1 then
        let '(err, c2) := Stop c1 in
        match err with
        | Some e =>
            if decide (e = ErrAlreadyStopped)
            then ((None, [CallUnsubscribeAll Name; CallStop]), with_client t c2)
            else ((Some e, [CallUnsubscribeAll Name; CallStop]), with_client t c2)
        | None => ((None, [CallUnsubscribeAll Name; CallStop]), with_client t c2)
        end
      else ((None, [CallUnsubscribeAll Name]), with_client t c1)
  end.

End Ext.

End tmstore_ext.

(** ** Package bcbatchfossilizer: the transformer of the fossilizer *)

Module bcbatchfossilizer.
Import cs goerr.

#[global] Instance byte_eq_dec : EqDecision Byte.byte := Byte.byte_eq_dec.

(** [blockchain.TransactionID] is a byte slice. *)
Definition TransactionID : Type := list Byte.byte.

(** [batchfossilizer.Evidence]: the transformer reads its [Root], a
    pointer; the rest of it is carried along. *)
Record BatchEvidence : Type := {
  Root : option Bytes32;
  Path : list Bytes32;
}.

(** [bcbatchfossilizer.Evidence]. *)
Record Evidence : Type := {
  ev_Evidence : BatchEvidence;
  ev_TransactionID : TransactionID;
}.

(** [fossilizer.Result]; its evidence is the wrapper map, from the name of
    the network to the evidence. *)
Record Result : Type := {
  res_Evidence : gmap string Evidence;
  res_Data : list Byte.byte;
  res_Meta : list Byte.byte;
}.

(** The interface [blockchain.HashTimestamper]: [T] is the state of the
    timestamper (and of the blockchain behind it). *)
Class HashTimestamper (T : Type) : Type := {
  TimestampHash : option Bytes32 → T → (TransactionID * option error) * T;
  Network_String : T → string;
}.

(** [Fossilizer], as far as [transform] uses it. [timestamped] records
    the roots that were sent to the timestamper, in order. *)
Record Fossilizer (T : Type) : Type := {
  timestamper : T;
  lastRoot : option Bytes32;
  lastTransactionID : TransactionID;
  timestamped : list (option Bytes32);
}.
Arguments timestamper {T} _.
Arguments lastRoot {T} _.
Arguments lastTransactionID {T} _.
Arguments timestamped {T} _.

(** A call returns or panics (the dereference of a nil root). *)
Inductive run (A : Type) : Type :=
| Returns (a : A)
| Panics.
Arguments Returns {A} a.
Arguments Panics {A}.

Section Transform.
Context `{ts : HashTimestamper T}.

(** [a.lastRoot == nil || *root != *a.lastRoot]; [None] is the panic of
    [*root] on a nil root. *)
Definition root_changed (a : Fossilizer T) (root : option Bytes32) : option bool :=
  match lastRoot a with
  | None => Some true
  | Some last =>
      match root with
      | None => None
      | Some r => Some (negb (bool_decide (r = last)))
      end
  end.

(** The result that [transform] builds from the state of the fossilizer. *)
Definition wrap (a : Fossilizer T) (evidence : BatchEvidence)
    (data meta : list Byte.byte) : Result :=
  {| res_Evidence :=
       {[ Network_String (timestamper a)
          := {| ev_Evidence := evidence;
                ev_TransactionID := lastTransactionID a |} ]};
     res_Data := data; res_Meta := meta |}.

(** [Fossilizer.transform]. *)
Definition transform (evidence : BatchEvidence) (data meta : list Byte.byte)
    (a : Fossilizer T) : run ((option Result * option error) * Fossilizer T) :=
  let root := Root evidence in
  match root_changed a root with
  | None => Panics
  | Some true =>
      let '(txid, err, ts') := TimestampHash root (timestamper a) in
      match err with
      | Some e =>
          Returns ((None, Some e),
                   {| timestamper := ts'; lastRoot := lastRoot a;
                      lastTransactionID := lastTransactionID a;
                      timestamped := timestamped a ++ [root] |})
      | None =>
          let a' := {| timestamper := ts'; lastRoot := root;
                       lastTransactionID := txid;
                       timestamped := timestamped a ++ [root] |} in
          Returns ((Some (wrap a' evidence data meta), None), a')
      end
  | Some false => Returns ((Some (wrap a evidence data meta), None), a)
  end.

(** The transformer run over the evidences of a batch, one after the
    other; it stops at the first that does not give a result. *)
Fixpoint transform_all (evidences : list BatchEvidence) (a : Fossilizer T)
    : run (list Result * option error * Fossilizer T) :=
  match evidences with
  | [] => Returns ([], None, a)
  | evidence :: rest =>
      match transform evidence [] [] a with
      | Panics => Panics
      | Returns ((None, err), a') => Returns ([], err, a')
      | Returns ((Some r, _), a') =>
          match transform_all rest a' with
          | Panics => Panics
          | Returns (rs, err, a'') => Returns (r :: rs, err, a'')
          end
      end
  end.

End Transform.

End bcbatchfossilizer.

(** ** More sample collaborators *)

Module samples_ext.
Import cs goerr store abci.

(** A codec like the sample one whose event decoder finds two events. *)
Definition two_events : list Event :=
  [SavedLinks [samples.link_a];
   SavedEvidences {["0a" := samples.evidence_1]}].

Definition events_env : tmstore.Env :=
  {| tmstore.CodeTypeValidation := 400%N;
     tmstore.BuildQueryBinary := λ _, inl [];
     tmstore.json_Marshal_Tx := λ _, inl [];
     tmstore.json_Unmarshal_Segment := λ _ target, (target, None);
     tmstore.json_Unmarshal_SegmentSlice := λ _ target, (target, None);
     tmstore.json_Unmarshal_Evidences := λ _ target, (target, None);
     tmstore.json_Unmarshal_strings := λ _ target, (target, None);
     tmstore.json_Unmarshal_Events := λ _ _, (two_events, None);
     tmstore.Link_Hash := λ _, inl samples.hash_a;
     tmstore.Segment_IsEmpty := λ segment, bool_decide (segment = tmstore.zero_Segment);
     tmstore.Bytes32_String := λ _, "0a";
     tmstore.fmt_Sprintf0 := λ format, format;
     tmstore.fmt_ResponseQuery := rq_Log |}.

(** A stored segment, and a codec whose segment decoder finds it. *)
Definition segment_a : Segment :=
  {| seg_Link := samples.link_a;
     seg_Meta := {| LinkHash := "a"; Evidences := [] |} |}.

Definition finding_env : tmstore.Env :=
  {| tmstore.CodeTypeValidation := 400%N;
     tmstore.BuildQueryBinary := λ _, inl [];
     tmstore.json_Marshal_Tx := λ _, inl [];
     tmstore.json_Unmarshal_Segment := λ _ _, (segment_a, None);
     tmstore.json_Unmarshal_SegmentSlice := λ _ target, (target, None);
     tmstore.json_Unmarshal_Evidences := λ _ target, (target, None);
     tmstore.json_Unmarshal_strings := λ _ target, (target, None);
     tmstore.json_Unmarshal_Events := λ _ target, (target, None);
     tmstore.Link_Hash := λ _, inl samples.hash_a;
     tmstore.Segment_IsEmpty := λ segment, bool_decide (segment = tmstore.zero_Segment);
     tmstore.Bytes32_String := λ _, "0a";
     tmstore.fmt_Sprintf0 := λ format, format;
     tmstore.fmt_ResponseQuery := rq_Log |}.

(** A client that answers every query with a value. *)
Definition answering_value : samples.Script :=
  {| samples.running := true; samples.start_answer := None;
     samples.subscribe_script := []; samples.subscribe_default := None;
     samples.query_answer := samples.ok_query (Some [Byte.x7b; Byte.x7d]);
     samples.broadcast_answer := samples.committed_answer |}.

(** A client that is not running and cannot be started. *)
Definition dead : samples.Script :=
  {| samples.running := false;
     samples.start_answer := Some (ErrNew "dial tcp: connection refused");
     samples.subscribe_script := []; samples.subscribe_default := None;
     samples.query_answer := samples.ok_query None;
     samples.broadcast_answer := samples.committed_answer |}.

(** The responses of a transaction that the delivery rejects. *)
Definition rejected_at_delivery : ResultBroadcastTxCommit :=
  {| CheckTx := samples.ok_tx;
     DeliverTx := {| Code := 400%N; Log := "reference not found" |} |}.

(** Stopping the scripted client: unsubscribing answers [unsubscribe],
    stopping answers [stop]. *)
Definition script_stopper (unsubscribe stop : option error)
    : tmstore_ext.Stopper samples.Script :=
  {| tmstore_ext.UnsubscribeAll := λ _ c, (unsubscribe, c);
     tmstore_ext.Stop := λ c, (stop, c) |}.

Definition already_stopped : error := ErrNew "already stopped".

(** Decoding the information of the application, as a string. *)
Definition sample_Unmarshal_Info (data : list Byte.byte) (target : string)
    : string * option error :=
  match data with
  | [] => (target, Some (ErrNew "unexpected end of JSON input"))
  | _ => ("tmpop", None)
  end.

Definition sample_config : tmstore_ext.Config :=
  {| tmstore_ext.Version := "0.2.0"; tmstore_ext.Commit := "abcdef" |}.

(** A timestamper over a chain of which the state is the number of
    transactions so far; it refuses the nil root, and its transaction ids
    are one byte that tells odd from even. *)
Definition chain_TimestampHash (root : option Bytes32) (n : nat)
    : (bcbatchfossilizer.TransactionID * option error) * nat :=
  match root with
  | None => (([], Some (ErrNew "no root")), n)
  | Some _ => (([if Nat.even n then Byte.x00 else Byte.x01], None), S n)
  end.

Definition chain : bcbatchfossilizer.HashTimestamper nat :=
  {| bcbatchfossilizer.TimestampHash := chain_TimestampHash;
     bcbatchfossilizer.Network_String := λ _, "bitcoin:test3" |}.

Definition fresh_fossilizer : bcbatchfossilizer.Fossilizer nat :=
  {| bcbatchfossilizer.timestamper := 0; bcbatchfossilizer.lastRoot := None;
     bcbatchfossilizer.lastTransactionID := [];
     bcbatchfossilizer.timestamped := [] |}.

(** A timestamper whose node cannot be reached. *)
Definition offline_chain : bcbatchfossilizer.HashTimestamper nat :=
  {| bcbatchfossilizer.TimestampHash :=
       λ _ n, (([], Some (ErrNew "node unreachable")), n);
     bcbatchfossilizer.Network_String := λ _, "bitcoin:test3" |}.

(** The fossilizer after it has timestamped the root [hash_b]. *)
Definition fossilizer_after_b : bcbatchfossilizer.Fossilizer nat :=
  {| bcbatchfossilizer.timestamper := 1;
     bcbatchfossilizer.lastRoot := Some samples.hash_b;
     bcbatchfossilizer.lastTransactionID := [Byte.x00];
     bcbatchfossilizer.timestamped := [Some samples.hash_b] |}.

Definition evidence_of (root : Bytes32) : bcbatchfossilizer.BatchEvidence :=
  {| bcbatchfossilizer.Root := Some root; bcbatchfossilizer.Path := [] |}.

(** A validator with the hash of [samples.accepting] that rejects. *)
Definition same_hash_rejecting : validator.Validator unit :=
  {| validator.Validate := λ _ _, Some (ErrNew "never");
     validator.ShouldValidate := λ _, true;
     validator.Hash := inl samples.hash_a |}.

End samples_ext.

(** * Properties *)

Module validator_facts.
Import cs goerr validator.

Section Facts.
Context {SegmentReader : Type}.
Context (Sum256 : list Byte.byte → Bytes32).

Implicit Types (v : multiValidator SegmentReader) (c : Validator SegmentReader).
Implicit Types (vs : list (Validator SegmentReader)) (l : Link) (r : SegmentReader).

Lemma Hash_loop_ok vs hs b :
  Hash <$> vs = inl <$> hs →
  Hash_loop vs b = inl (b ++ concat (Bytes32_slice <$> hs)).
Proof.
  revert hs b. induction vs as [|c vs IH]; intros [|h hs] b Heq; try discriminate.
  - simpl. by rewrite app_nil_r.
  - rewrite !fmap_cons in Heq. injection Heq as Hc Hvs. simpl.
    rewrite Hc, (IH hs) by done. by rewrite <- app_assoc.
Qed.

Lemma Hash_loop_first_failure pre c post hs e b :
  Hash <$> pre = inl <$> hs →
  Hash c = inr e →
  Hash_loop (pre ++ c :: post) b = inr (ErrWithStack e).
Proof.
  revert hs b. induction pre as [|c' pre IH]; intros [|h hs] b Heq Hc; try discriminate.
  - simpl. by rewrite Hc.
  - rewrite !fmap_cons in Heq. injection Heq as Hc' Hpre. simpl.
    rewrite Hc'. by apply (IH hs).
Qed.

(** The children either all have a hash, or there is a first one that
    has none. *)
Lemma Hash_children_cases vs :
  (∃ hs, Hash <$> vs = inl <$> hs)
  ∨ (∃ pre c post hs e,
        vs = pre ++ c :: post ∧ Hash <$> pre = inl <$> hs ∧ Hash c = inr e).
Proof.
  induction vs as [|c vs IH].
  - left. by exists [].
  - destruct (Hash c) as [h|e] eqn:Hc.
    + destruct IH as [[hs Hhs]|(pre & c' & post & hs & e & -> & Hpre & Hc')].
      * left. exists (h :: hs). by rewrite !fmap_cons, Hc, Hhs.
      * right. exists (c :: pre), c', post, (h :: hs), e.
        by rewrite !fmap_cons, Hc, Hpre.
    + right. by exists [], c, vs, [], e.
Qed.

(** C9. The hash of a composite validator is the SHA-256 digest of the
    hashes of its children, concatenated in the order of the list; and
    when a child has no hash, the composite has none either, and fails
    with the error of the first such child (annotated by
    [errors.WithStack], which keeps its message and its cause). *)
Theorem multiValidator_Hash_digest vs :
  (∀ hs, Hash <$> vs = inl <$> hs →
     Hash (NewMultiValidator Sum256 vs)
     = inl (Sum256 (concat (Bytes32_slice <$> hs))))
  ∧ (∀ pre c post hs e,
       vs = pre ++ c :: post → Hash <$> pre = inl <$> hs → Hash c = inr e →
       Hash (NewMultiValidator Sum256 vs) = inr (ErrWithStack e)
       ∧ Error (ErrWithStack e) = Error e ∧ Cause (ErrWithStack e) = Cause e).
Proof.
  split.
  - intros hs Hhs. simpl. unfold multiValidator_Hash. simpl.
    by rewrite (Hash_loop_ok _ hs).
  - intros pre c post hs e -> Hpre Hc. simpl. unfold multiValidator_Hash. simpl.
    by rewrite (Hash_loop_first_failure _ _ _ hs e).
Qed.

(** A failing child anywhere makes the composite fail, with the error of
    one of its failing children. *)
Corollary multiValidator_Hash_any_failure vs c e :
  c ∈ vs → Hash c = inr e →
  ∃ c' e', c' ∈ vs ∧ Hash c' = inr e'
           ∧ multiValidator_Hash Sum256 {| validators := vs |} = inr (ErrWithStack e').
Proof.
  intros Hin Hc.
  destruct (Hash_children_cases vs) as [[hs Hhs]|(pre & c' & post & hs & e' & -> & Hpre & Hc')].
  - exfalso. apply list_elem_of_lookup in Hin as [i Hi].
    assert (Hl : (Hash <$> vs) !! i = Some (inr e)) by by rewrite list_lookup_fmap, Hi; simpl; rewrite Hc.
    rewrite Hhs, list_lookup_fmap in Hl. destruct (hs !! i); discriminate.
  - exists c', e'. split; [apply elem_of_app; right; left|]. split; [done|].
    unfold multiValidator_Hash. simpl.
    by rewrite (Hash_loop_first_failure _ _ _ hs e').
Qed.

(** The length of the bytes that are hashed: 32 for each child. *)
Lemma Hash_loop_length vs b b' :
  Hash_loop vs b = inl b' → length b' = length b + 32 * length vs.
Proof.
  revert b. induction vs as [|c vs IH]; intros b; simpl.
  - intros [= <-]. lia.
  - destruct (Hash c) as [h|e]; [|done]. intros Hl. apply IH in Hl.
    rewrite length_app in Hl. unfold Bytes32_slice in Hl.
    rewrite length_vec_to_list in Hl. lia.
Qed.

Lemma matchValidators_loop_filter vs l acc :
  matchValidators_loop vs l acc = acc ++ filter (λ c, ShouldValidate c l) vs.
Proof.
  revert acc. induction vs as [|c vs IH]; intros acc; simpl.
  - by rewrite app_nil_r.
  - rewrite filter_cons. destruct (ShouldValidate c l) eqn:Hc; simpl.
    + rewrite IH. by rewrite <- app_assoc.
    + by rewrite IH.
Qed.

Lemma filter_none vs l :
  (∀ c, c ∈ vs → ShouldValidate c l = false) →
  filter (λ c, ShouldValidate c l) vs = [].
Proof.
  induction vs as [|c vs IH]; intros Hnone; [done|].
  rewrite filter_cons, (Hnone c) by left. simpl.
  apply IH. intros c' Hc'. apply Hnone. by right.
Qed.

(** [matchValidators] keeps the children that claim the link, in order. *)
Lemma matchValidators_filter v l :
  matchValidators v l = filter (λ c, ShouldValidate c l) (validators v).
Proof. unfold matchValidators. by rewrite matchValidators_loop_filter. Qed.

Lemma Validate_loop_first_error pre c post r l e :
  Forall (λ c', Validate c' r l = None) pre →
  Validate c r l = Some e →
  Validate_loop (pre ++ c :: post) r l = Some e.
Proof.
  induction 1 as [|c' pre Hc' _ IH]; intros Hc; simpl.
  - by rewrite Hc.
  - rewrite Hc'. by apply IH.
Qed.

Lemma Validate_loop_all_accept cs r l :
  Forall (λ c, Validate c r l = None) cs → Validate_loop cs r l = None.
Proof. induction 1 as [|c cs Hc _ IH]; simpl; [done|]. by rewrite Hc. Qed.

(** C10. A link that no child claims is rejected, with the error that
    names its process and type; a link that some children claim gets the
    error of the first of them (in list order) that rejects it, and is
    accepted when all of them accept it. *)
Theorem multiValidator_Validate_fail_closed v r l :
  let claiming := filter (λ c, ShouldValidate c l) (validators v) in
  ((∀ c, c ∈ validators v → ShouldValidate c l = false) →
     multiValidator_Validate v r l = Some (ErrNew (no_match_message l)))
  ∧ (∀ pre c post e,
       claiming = pre ++ c :: post →
       Forall (λ c', Validate c' r l = None) pre →
       Validate c r l = Some e →
       multiValidator_Validate v r l = Some e)
  ∧ (claiming ≠ [] →
       Forall (λ c, Validate c r l = None) claiming →
       multiValidator_Validate v r l = None).
Proof.
  intros claiming. unfold multiValidator_Validate.
  rewrite matchValidators_filter. fold claiming. repeat split.
  - intros Hnone. assert (Hnil : claiming = []).
    { apply filter_none. intros c Hc. by rewrite Hnone. }
    by rewrite Hnil.
  - intros pre c post e Heq Hpre Hc. rewrite Heq.
    destruct (decide _) as [Hlen|_].
    + rewrite length_app in Hlen. simpl in Hlen. lia.
    + by apply Validate_loop_first_error.
  - intros Hne Hall. destruct (decide _) as [Hlen|_].
    + by apply nil_length_inv in Hlen.
    + by apply Validate_loop_all_accept.
Qed.

End Facts.

(** The digest of two children, and the failure of a composite whose
    second child has no hash. *)
Lemma multiValidator_Hash_digest_witness :
  Hash (NewMultiValidator samples.first_byte_digest [samples.accepting; samples.rejecting])
  = inl (samples.first_byte_digest
           (Bytes32_slice samples.hash_a ++ Bytes32_slice samples.hash_b))
  ∧ Hash (NewMultiValidator samples.first_byte_digest
            [samples.accepting; samples.hashless; samples.rejecting])
    = inr (ErrWithStack (ErrNew "no hash")).
Proof.
  split.
  - exact (proj1 (multiValidator_Hash_digest samples.first_byte_digest
                    [samples.accepting; samples.rejecting])
             [samples.hash_a; samples.hash_b] eq_refl).
  - exact (proj1 (proj2 (multiValidator_Hash_digest samples.first_byte_digest
                           [samples.accepting; samples.hashless; samples.rejecting])
                    [samples.accepting] samples.hashless [samples.rejecting]
                    [samples.hash_a] (ErrNew "no hash") eq_refl eq_refl eq_refl)).
Defined.

(** A link of an unknown process is rejected; a link that the two
    children for process [p] claim gets the error of the rejecting one;
    with the accepting child alone it is accepted. *)
Lemma multiValidator_Validate_fail_closed_witness :
  multiValidator_Validate
    {| validators := [samples.accepting; samples.rejecting] |} tt samples.link_q
  = Some (ErrNew (no_match_message samples.link_q))
  ∧ multiValidator_Validate
      {| validators := [samples.accepting; samples.hashless; samples.rejecting] |}
      tt samples.link_a
    = Some (ErrNew "bad state")
  ∧ multiValidator_Validate
      {| validators := [samples.hashless; samples.accepting] |} tt samples.link_a
    = None.
Proof.
  split; [|split].
  - apply (proj1 (multiValidator_Validate_fail_closed
                    {| validators := [samples.accepting; samples.rejecting] |}
                    tt samples.link_q)).
    intros c Hc. apply elem_of_cons in Hc as [->|Hc]; [reflexivity|].
    apply list_elem_of_singleton in Hc as ->. reflexivity.
  - apply (proj1 (proj2 (multiValidator_Validate_fail_closed
                    {| validators := [samples.accepting; samples.hashless; samples.rejecting] |}
                    tt samples.link_a))
             [samples.accepting] samples.rejecting []).
    + reflexivity.
    + repeat constructor.
    + reflexivity.
  - apply (proj2 (proj2 (multiValidator_Validate_fail_closed
                    {| validators := [samples.hashless; samples.accepting] |}
                    tt samples.link_a))).
    + discriminate.
    + repeat constructor.
Defined.

End validator_facts.

Module tmstore_facts.
Import cs goerr store abci tmstore.

Section Facts.
Context `{env : Env} `{client : Client C}.

Implicit Types (t : TMStore C) (c : C) (linkHash : Bytes32).

Lemma after_effects_nil t : after_effects t [] = t.
Proof. destruct t. unfold after_effects. simpl. by rewrite app_nil_r. Qed.

Lemma after_effects_app t es es' :
  after_effects (after_effects t es) es' = after_effects t (es ++ es').
Proof. unfold after_effects. simpl. by rewrite app_assoc. Qed.

Lemma call_eq {A} (e : Effect) (method : C → A * C) t :
  call e method t = Ok (fst (method (tmClient t)), after_call t e (snd (method (tmClient t)))).
Proof. unfold call. by destruct (method (tmClient t)). Qed.

Lemma send_all_eq chans event t :
  send_all chans event t = Ok (tt, after_effects t ((λ ch, Send ch event) <$> chans)).
Proof.
  revert t. induction chans as [|ch chans IH]; intros t; simpl.
  - unfold mret, M_ret. by rewrite after_effects_nil.
  - unfold mbind, M_bind, emit. rewrite IH. unfold after_effects. simpl.
    by rewrite <- app_assoc.
Qed.

(** The four ways in which [sendQuery] ends. *)
Lemma sendQuery_encode_error name args err t :
  BuildQueryBinary args = inr err →
  sendQuery name args t = Ok ((None, Some err), t).
Proof. intros Hq. unfold sendQuery. by rewrite Hq. Qed.

Lemma sendQuery_transport_error name args query resp e c t :
  BuildQueryBinary args = inl query →
  ABCIQuery name query (tmClient t) = (resp, Some e, c) →
  sendQuery name args t = Ok ((None, Some e), after_call t (CallABCIQuery name query) c).
Proof.
  intros Hq Ha. unfold sendQuery. rewrite Hq. unfold mbind, M_bind.
  by rewrite call_eq, Ha.
Qed.

Lemma sendQuery_nil_response name args query c t :
  BuildQueryBinary args = inl query →
  ABCIQuery name query (tmClient t) = (None, None, c) →
  sendQuery name args t = Panic.
Proof.
  intros Hq Ha. unfold sendQuery. rewrite Hq. unfold mbind, M_bind.
  by rewrite call_eq, Ha.
Qed.

Lemma sendQuery_nok name args query resp c t :
  BuildQueryBinary args = inl query →
  ABCIQuery name query (tmClient t) = (Some resp, None, c) →
  IsOK (Response resp) = false →
  sendQuery name args t
  = Ok ((None, Some (ErrNew ("NOK Response from TMPop: "
                             +:+ fmt_ResponseQuery (Response resp)))),
        after_call t (CallABCIQuery name query) c).
Proof.
  intros Hq Ha Hok. unfold sendQuery. rewrite Hq. unfold mbind, M_bind.
  rewrite call_eq, Ha. simpl. by rewrite Hok.
Qed.

Lemma sendQuery_ok name args query resp c t :
  BuildQueryBinary args = inl query →
  ABCIQuery name query (tmClient t) = (Some resp, None, c) →
  IsOK (Response resp) = true →
  sendQuery name args t
  = Ok ((Some (Response resp), None), after_call t (CallABCIQuery name query) c).
Proof.
  intros Hq Ha Hok. unfold sendQuery. rewrite Hq. unfold mbind, M_bind.
  rewrite call_eq, Ha. simpl. by rewrite Hok.
Qed.

(** [sendQuery] returns a response exactly when it returns no error, it
    leaves the channels alone, and what it adds to the trace is at most
    the one query. *)
Lemma sendQuery_inv name args t res err t' :
  sendQuery name args t = Ok ((res, err), t') →
  (is_Some res ↔ err = None)
  ∧ ((t' = t ∧ is_Some err)
     ∨ ∃ query c, BuildQueryBinary args = inl query
                  ∧ t' = after_call t (CallABCIQuery name query) c).
Proof.
  unfold sendQuery. destruct (BuildQueryBinary args) as [query|e] eqn:Hq.
  - unfold mbind, M_bind. rewrite call_eq.
    destruct (ABCIQuery name query (tmClient t)) as [[resp e] c]. simpl.
    destruct e as [e|].
    + intros [= <- <- <-]. split; [|right; eauto].
      split; [by intros [? ?]|done].
    + destruct resp as [resp|]; [|done].
      destruct (IsOK (Response resp)); simpl; intros [= <- <- <-].
      * split; [|right; eauto]. split; [done|eauto].
      * split; [|right; eauto]. split; [by intros [? ?]|done].
  - intros [= <- <- <-]. split; [|left; eauto].
    split; [by intros [? ?]|done].
Qed.

(** *** AddEvidence *)

(** What [AddEvidence] sends on a channel. *)
Lemma evidence_event_eq linkHash evidence :
  AddSavedEvidence NewSavedEvidences (Bytes32_String linkHash) evidence
  = SavedEvidences {[Bytes32_String linkHash := evidence]}.
Proof. done. Qed.

Lemma AddEvidence_ok linkHash evidence query resp c t :
  BuildQueryBinary (ArgAddEvidence linkHash evidence) = inl query →
  ABCIQuery AddEvidence_path query (tmClient t) = (Some resp, None, c) →
  IsOK (Response resp) = true →
  AddEvidence linkHash evidence t
  = Ok (None,
        after_effects (after_call t (CallABCIQuery AddEvidence_path query) c)
          ((λ ch, Send ch (SavedEvidences {[Bytes32_String linkHash := evidence]}))
             <$> storeEventChans t)).
Proof.
  intros Hq Ha Hok. unfold AddEvidence, mbind, M_bind.
  rewrite (sendQuery_ok _ _ query resp c) by done.
  unfold get_storeEventChans. by rewrite send_all_eq.
Qed.


(** [AddEvidence] always returns, unless the client breaks its contract
    by answering the query with neither a response nor an error. *)
Lemma AddEvidence_returns linkHash evidence t :
  (∀ query, fst (ABCIQuery AddEvidence_path query (tmClient t)) ≠ (None, None)) →
  ∃ r t', AddEvidence linkHash evidence t = Ok (r, t').
Proof.
  intros Hc. unfold AddEvidence, mbind, M_bind, sendQuery.
  destruct (BuildQueryBinary _) as [query|e]; [|by eauto].
  unfold mbind, M_bind. rewrite call_eq. specialize (Hc query).
  destruct (ABCIQuery _ query (tmClient t)) as [[resp e] c]. simpl in *.
  destruct e as [e|]; [by eauto|].
  destruct resp as [resp|]; [|done].
  destruct (IsOK (Response resp)); simpl; [|by eauto].
  unfold get_storeEventChans. rewrite send_all_eq. eauto.
Qed.

(** *** GetSegment *)

(** C6. When the state machine answers the query for a link hash with
    "not found" (an OK response whose value is nil, or whose value decodes
    without error to an empty segment), [GetSegment] returns a nil segment
    and a nil error: the empty segment is turned into nil, and no error is
    made up. *)
Theorem GetSegment_not_found linkHash query resp c t :
  BuildQueryBinary (ArgLinkHash linkHash) = inl query →
  ABCIQuery GetSegment_path query (tmClient t) = (Some resp, None, c) →
  IsOK (Response resp) = true →
  (rq_Value (Response resp) = None
   ∨ ∃ value segment,
       rq_Value (Response resp) = Some value
       ∧ json_Unmarshal_Segment value zero_Segment = (segment, None)
       ∧ Segment_IsEmpty segment = true) →
  GetSegment linkHash t
  = Ok ((None, None), after_call t (CallABCIQuery GetSegment_path query) c).
Proof.
  intros Hq Ha Hok Hnf. unfold GetSegment, mbind, M_bind.
  rewrite (sendQuery_ok _ _ query resp c) by done.
  destruct Hnf as [->|(value & segment & -> & -> & ->)]; done.
Qed.

(** Conversely, an error from [GetSegment] is an error of the query or of
    the decoder, and a segment that comes without an error is not empty:
    the outcomes "found", "not found" and "error" do not overlap. *)
Lemma GetSegment_outcomes linkHash t segment err t' :
  GetSegment linkHash t = Ok ((segment, err), t') →
  match segment, err with
  | None, None =>
      ∃ query resp c,
        ABCIQuery GetSegment_path query (tmClient t) = (Some resp, None, c)
        ∧ IsOK (Response resp) = true
        ∧ (rq_Value (Response resp) = None
           ∨ ∃ value segment',
               rq_Value (Response resp) = Some value
               ∧ json_Unmarshal_Segment value zero_Segment = (segment', None)
               ∧ Segment_IsEmpty segment' = true)
  | Some found, None => Segment_IsEmpty found = false
  | _, Some _ => True
  end.
Proof.
  unfold GetSegment, mbind, M_bind, sendQuery.
  destruct (BuildQueryBinary _) as [query|e]; [|by intros [= <- <- <-]].
  unfold mbind, M_bind. rewrite call_eq.
  destruct (ABCIQuery _ query (tmClient t)) as [[resp e] c] eqn:Ha. simpl.
  destruct e as [e|]; [by intros [= <- <- <-]|].
  destruct resp as [resp|]; [|done].
  destruct (IsOK (Response resp)) eqn:Hok; simpl; [|by intros [= <- <- <-]].
  destruct (rq_Value (Response resp)) as [value|] eqn:Hv.
  - destruct (json_Unmarshal_Segment value zero_Segment) as [seg e] eqn:Hd.
    destruct e as [e|]; [by intros [= <- <- <-]|].
    destruct (Segment_IsEmpty seg) eqn:He; intros [= <- <- <-]; [|done].
    exists query, resp, c. repeat split; try done. right. by exists value, seg.
  - intros [= <- <- <-]. exists query, resp, c. repeat split; try done. by left.
Qed.

(** *** The read operations and panics *)

(** [GetMapIDs] panics whenever its query fails: on a transport error ... *)
Lemma GetMapIDs_panics_on_transport_error filter query resp e c t :
  BuildQueryBinary (ArgMapFilter filter) = inl query →
  ABCIQuery GetMapIDs_path query (tmClient t) = (resp, Some e, c) →
  GetMapIDs filter t = Panic.
Proof.
  intros Hq Ha. unfold GetMapIDs, mbind, M_bind.
  by rewrite (sendQuery_transport_error _ _ query resp e c).
Qed.

(** ... on a response that is not OK ... *)
Lemma GetMapIDs_panics_on_nok filter query resp c t :
  BuildQueryBinary (ArgMapFilter filter) = inl query →
  ABCIQuery GetMapIDs_path query (tmClient t) = (Some resp, None, c) →
  IsOK (Response resp) = false →
  GetMapIDs filter t = Panic.
Proof.
  intros Hq Ha Hok. unfold GetMapIDs, mbind, M_bind.
  by rewrite (sendQuery_nok _ _ query resp c).
Qed.

(** ... and on a filter that cannot be encoded. *)
Lemma GetMapIDs_panics_on_encode_error filter err t :
  BuildQueryBinary (ArgMapFilter filter) = inr err →
  GetMapIDs filter t = Panic.
Proof.
  intros Hq. unfold GetMapIDs, mbind, M_bind.
  by rewrite (sendQuery_encode_error _ _ err).
Qed.

(** The three other read operations check the error of the query before
    they read the response: they return whenever the client keeps its
    contract (a response or an error). *)
Lemma GetSegment_returns linkHash t :
  (∀ query, fst (ABCIQuery GetSegment_path query (tmClient t)) ≠ (None, None)) →
  ∃ r t', GetSegment linkHash t = Ok (r, t').
Proof.
  intros Hc. unfold GetSegment, mbind, M_bind, sendQuery.
  destruct (BuildQueryBinary _) as [query|e]; [|by eauto].
  unfold mbind, M_bind. rewrite call_eq. specialize (Hc query).
  destruct (ABCIQuery _ query (tmClient t)) as [[resp e] c]. simpl in *.
  destruct e as [e|]; [by eauto|].
  destruct resp as [resp|]; [|done].
  destruct (IsOK (Response resp)); simpl; [|by eauto].
  destruct (rq_Value (Response resp)) as [value|]; [|by eauto].
  destruct (json_Unmarshal_Segment value zero_Segment) as [seg [e|]]; [by eauto|].
  destruct (Segment_IsEmpty seg); eauto.
Qed.

Lemma FindSegments_returns filter t :
  (∀ query, fst (ABCIQuery FindSegments_path query (tmClient t)) ≠ (None, None)) →
  ∃ r t', FindSegments filter t = Ok (r, t').
Proof.
  intros Hc. unfold FindSegments, mbind, M_bind, sendQuery.
  destruct (BuildQueryBinary _) as [query|e]; [|by eauto].
  unfold mbind, M_bind. rewrite call_eq. specialize (Hc query).
  destruct (ABCIQuery _ query (tmClient t)) as [[resp e] c]. simpl in *.
  destruct e as [e|]; [by eauto|].
  destruct resp as [resp|]; [|done].
  destruct (IsOK (Response resp)); simpl; eauto.
Qed.

Lemma GetEvidences_returns linkHash t :
  (∀ query, fst (ABCIQuery GetEvidences_path query (tmClient t)) ≠ (None, None)) →
  ∃ r t', GetEvidences linkHash t = Ok (r, t').
Proof.
  intros Hc. unfold GetEvidences, mbind, M_bind, sendQuery.
  destruct (BuildQueryBinary _) as [query|e]; [|by eauto].
  unfold mbind, M_bind. rewrite call_eq. specialize (Hc query).
  destruct (ABCIQuery _ query (tmClient t)) as [[resp e] c]. simpl in *.
  destruct e as [e|]; [by eauto|].
  destruct resp as [resp|]; [|done].
  destruct (IsOK (Response resp)); simpl; [|by eauto].
  destruct (rq_Value (Response resp)) as [value|]; eauto.
Qed.

(** *** CreateLink and the outcome of the broadcast *)

Lemma broadcastTx_answered tx txBytes result c t :
  json_Marshal_Tx tx = inl txBytes →
  BroadcastTxCommit txBytes (tmClient t) = (Some result, None, c) →
  broadcastTx tx t
  = Ok (if IsErr (CheckTx result) then
          if decide (Code (CheckTx result) = CodeTypeValidation)
          then (None, Some (ErrBadRequest (Log (CheckTx result))))
          else (None, Some (ErrNew (fmt_Sprintf0 (Log (CheckTx result)))))
        else if IsErr (DeliverTx result) then
          (None, Some (ErrNew (fmt_Sprintf0 (Log (DeliverTx result)))))
        else (Some result, None),
        after_call t (CallBroadcastTxCommit txBytes) c).
Proof.
  intros Hm Hb. unfold broadcastTx. rewrite Hm. unfold mbind, M_bind.
  rewrite call_eq, Hb. simpl.
  destruct (IsErr (CheckTx result)); [by destruct (decide _)|].
  by destruct (IsErr (DeliverTx result)).
Qed.

(** C3, as the code has it. A [CreateLink] whose transaction the state
    machine rejects, at either phase, returns the hash of the link with an
    error. For a rejection at the check phase the class of the error
    follows the code of the rejection: with the validation code it is a
    bad-request error that carries the log of the rejection, with any
    other code it is a plain error made from the log. *)
Theorem CreateLink_rejected link h txBytes result c t :
  Link_Hash link = inl h →
  json_Marshal_Tx {| tx_TxType := CreateLink_tx; tx_Link := link; tx_LinkHash := h |}
  = inl txBytes →
  BroadcastTxCommit txBytes (tmClient t) = (Some result, None, c) →
  IsErr (CheckTx result) || IsErr (DeliverTx result) = true →
  ∃ err,
    CreateLink link t
    = Ok ((Some h, Some err), after_call t (CallBroadcastTxCommit txBytes) c)
    ∧ (IsErr (CheckTx result) = true →
       Code (CheckTx result) = CodeTypeValidation →
       err = ErrBadRequest (Log (CheckTx result)) ∧ is_validation_class err = true)
    ∧ (IsErr (CheckTx result) = true →
       Code (CheckTx result) ≠ CodeTypeValidation →
       err = ErrNew (fmt_Sprintf0 (Log (CheckTx result)))
       ∧ is_validation_class err = false).
Proof.
  intros Hh Hm Hb Hrej. unfold CreateLink. rewrite Hh. unfold mbind, M_bind.
  rewrite (broadcastTx_answered _ txBytes result c) by done.
  destruct (IsErr (CheckTx result)) eqn:Hc.
  - destruct (decide _) as [Hv|Hv]; eexists; (split; [done|]); split; by intros.
  - simpl in Hrej. rewrite Hrej. eexists. split; [done|]. split; by intros.
Qed.

(** A rejection at the delivery phase (the check phase having accepted)
    gives a plain error made from the log of the delivery, whatever its
    code: the code of the delivery response is not read. *)
Lemma CreateLink_rejected_at_delivery link h txBytes result c t :
  Link_Hash link = inl h →
  json_Marshal_Tx {| tx_TxType := CreateLink_tx; tx_Link := link; tx_LinkHash := h |}
  = inl txBytes →
  BroadcastTxCommit txBytes (tmClient t) = (Some result, None, c) →
  IsErr (CheckTx result) = false → IsErr (DeliverTx result) = true →
  CreateLink link t
  = Ok ((Some h, Some (ErrNew (fmt_Sprintf0 (Log (DeliverTx result))))),
        after_call t (CallBroadcastTxCommit txBytes) c).
Proof.
  intros Hh Hm Hb Hc Hd. unfold CreateLink. rewrite Hh. unfold mbind, M_bind.
  rewrite (broadcastTx_answered _ txBytes result c) by done.
  by rewrite Hc, Hd.
Qed.

(** A committed transaction: the hash and no error. *)
Lemma CreateLink_committed link h txBytes result c t :
  Link_Hash link = inl h →
  json_Marshal_Tx {| tx_TxType := CreateLink_tx; tx_Link := link; tx_LinkHash := h |}
  = inl txBytes →
  BroadcastTxCommit txBytes (tmClient t) = (Some result, None, c) →
  IsErr (CheckTx result) = false → IsErr (DeliverTx result) = false →
  CreateLink link t
  = Ok ((Some h, None), after_call t (CallBroadcastTxCommit txBytes) c).
Proof.
  intros Hh Hm Hb Hc Hd. unfold CreateLink. rewrite Hh. unfold mbind, M_bind.
  rewrite (broadcastTx_answered _ txBytes result c) by done.
  by rewrite Hc, Hd.
Qed.

(** *** The subscription and its retries *)

Lemma start_client_trace t r t' :
  start_client t = Ok (r, t') →
  ∃ new, trace t' = trace t ++ new ∧ filter (λ e, is_Sleep e) new = []
         ∧ storeEventChans t' = storeEventChans t.
Proof.
  unfold start_client, mbind, M_bind, client_IsRunning.
  destruct (IsRunning (tmClient t)); simpl.
  - intros [= <- <-]. exists []. by rewrite app_nil_r.
  - rewrite call_eq. destruct (Start (tmClient t)) as [[e|] c]; simpl.
    + destruct (decide _); intros [= <- <-]; by exists [CallStart].
    + intros [= <- <-]. by exists [CallStart].
Qed.

(** [StartWebsocket] does not pause and does not touch the registered
    channels. *)
Lemma StartWebsocket_trace t r t' :
  StartWebsocket t = Ok (r, t') →
  ∃ new, trace t' = trace t ++ new ∧ filter (λ e, is_Sleep e) new = []
         ∧ storeEventChans t' = storeEventChans t.
Proof.
  unfold StartWebsocket. unfold mbind at 1. unfold M_bind.
  destruct (start_client t) as [[started t1]| |] eqn:Hs; [|done..].
  apply start_client_trace in Hs as (new1 & Htr & Hf & Hch).
  destruct started as [e|].
  - intros [= <- <-]. by exists new1.
  - unfold mbind, M_bind, make_tmEventChan, emit. simpl. rewrite call_eq. simpl.
    destruct (Subscribe _ _ _) as [[e|] c]; simpl.
    + destruct (decide _); intros [= <- <-]; simpl; rewrite Htr;
        (eexists; split; [by rewrite <- !app_assoc|]); split; try done;
        rewrite !filter_app, Hf; done.
    + intros [= <- <-]; simpl; rewrite Htr;
        (eexists; split; [by rewrite <- !app_assoc|]); split; try done;
        rewrite !filter_app, Hf; done.
Qed.

(** "Already subscribed" is a success of [StartWebsocket]: once the client
    is started, a subscription that answers with that error makes
    [StartWebsocket] return nil. *)
Lemma StartWebsocket_already_subscribed t t1 e c :
  start_client t = Ok (None, t1) →
  Subscribe Name (nextChan t1) (tmClient t1) = (Some e, c) →
  Error e = ErrAlreadySubscribed →
  ∃ t', StartWebsocket t = Ok (None, t').
Proof.
  intros Hs Hsub He. unfold StartWebsocket. unfold mbind at 1. unfold M_bind.
  rewrite Hs. unfold mbind, M_bind, make_tmEventChan, emit. simpl.
  rewrite call_eq. simpl. rewrite Hsub. simpl.
  rewrite decide_True by done. eauto.
Qed.

Lemma attempt_success interval n t r t' :
  StartWebsocket t = Ok (r, t') → attempt_ok r = true →
  ∃ cont, RetryStartWebsocket_attempt interval n t = Ok ((cont, None), t').
Proof.
  intros Hs Hok. unfold RetryStartWebsocket_attempt, mbind, M_bind. rewrite Hs.
  destruct r as [e|]; [|by eauto]. simpl in Hok.
  apply bool_decide_eq_true in Hok. rewrite decide_True by done. eauto.
Qed.

Lemma attempt_failure interval n t e t1 :
  StartWebsocket t = Ok (Some e, t1) → attempt_ok (Some e) = false →
  RetryStartWebsocket_attempt interval n t
  = Ok ((true, Some e), after_effects t1 [Sleep interval]).
Proof.
  intros Hs Hok. unfold RetryStartWebsocket_attempt, mbind, M_bind. rewrite Hs.
  simpl in Hok. apply bool_decide_eq_false in Hok. by rewrite decide_False by done.
Qed.

Lemma Retry_from_attempts interval k t t' :
  attempts interval k t t' →
  ∀ fuel n, k < fuel →
    Retry_from fuel (RetryStartWebsocket_attempt interval) 0 n t = Ok (None, t').
Proof.
  induction 1 as [t r t' Hs Hok|k t e t1 t' Hs Hok _ IH]; intros [|fuel] n Hlt; try lia.
  - simpl. unfold mbind, M_bind.
    destruct (attempt_success interval n _ _ _ Hs Hok) as [cont ->].
    simpl. by rewrite orb_true_r.
  - simpl. unfold mbind, M_bind. rewrite (attempt_failure interval n _ _ _ Hs Hok).
    simpl. apply IH. lia.
Qed.

Lemma Retry_from_never_connects interval P :
  never_connects interval P →
  ∀ fuel n t, P t →
    Retry_from fuel (RetryStartWebsocket_attempt interval) 0 n t = OutOfFuel.
Proof.
  intros Hnever fuel. induction fuel as [|fuel IH]; intros n t HP; [done|].
  destruct (Hnever t HP) as (e & t1 & Hs & Hok & HP').
  simpl. unfold mbind, M_bind. rewrite (attempt_failure interval n _ _ _ Hs Hok).
  simpl. by apply IH.
Qed.

(** The pauses between the attempts: [k] pauses of the given interval. *)
Lemma attempts_sleeps interval k t t' :
  attempts interval k t t' →
  ∃ new, trace t' = trace t ++ new
         ∧ filter (λ e, is_Sleep e) new = replicate k (Sleep interval).
Proof.
  induction 1 as [t r t' Hs Hok|k t e t1 t' Hs Hok _ IH].
  - apply StartWebsocket_trace in Hs as (new & Htr & Hf & _). by exists new.
  - apply StartWebsocket_trace in Hs as (new1 & Htr & Hf & _).
    destruct IH as (new2 & Htr2 & Hf2). simpl in Htr2.
    exists (new1 ++ Sleep interval :: new2). split.
    + rewrite Htr2, Htr. by rewrite <- !app_assoc.
    + rewrite filter_app, Hf, filter_cons. simpl. by rewrite Hf2.
Qed.

(** C5. The start-up of the subscription, retried: an attempt that ends
    with "already subscribed" is a success, after which the operation
    returns nil without pausing or trying again; after any other error the
    operation pauses for the interval and tries again, however many times
    that takes ([k] is arbitrary), and it returns nil once an attempt
    succeeds, having paused [k] times for that same interval; there is no
    bound: while every attempt fails, the operation does not return, for
    any amount of fuel. *)
Theorem RetryStartWebsocket_retries interval :
  (∀ t t1 e c,
     start_client t = Ok (None, t1) →
     Subscribe Name (nextChan t1) (tmClient t1) = (Some e, c) →
     Error e = ErrAlreadySubscribed →
     ∃ t', ∀ fuel,
       RetryStartWebsocket (S fuel) interval t = Ok (None, t')
       ∧ ∃ new, trace t' = trace t ++ new ∧ filter (λ e, is_Sleep e) new = [])
  ∧ (∀ k t t',
       attempts interval k t t' →
       (∀ fuel, k < fuel → RetryStartWebsocket fuel interval t = Ok (None, t'))
       ∧ ∃ new, trace t' = trace t ++ new
                ∧ filter (λ e, is_Sleep e) new = replicate k (Sleep interval))
  ∧ (∀ P t,
       never_connects interval P → P t →
       ∀ fuel, RetryStartWebsocket fuel interval t = OutOfFuel).
Proof.
  repeat split.
  - intros t t1 e c Hs Hsub He.
    destruct (StartWebsocket_already_subscribed t t1 e c Hs Hsub He) as [t' Hst].
    exists t'. intros fuel.
    assert (Hat : attempts interval 0 t t') by by eapply attempts_last.
    split.
    + apply (Retry_from_attempts interval 0 t t' Hat). lia.
    + apply (attempts_sleeps interval 0 t t' Hat).
  - intros fuel Hlt. by apply (Retry_from_attempts interval k t t').
  - by apply attempts_sleeps.
  - intros P t Hnever HP fuel. by apply (Retry_from_never_connects interval P).
Qed.

(** *** The fan-out of the pending events *)

Lemma fan_out_eq events chans t :
  fan_out events chans t
  = Ok (tt, after_effects t
              (event ← events; (λ ch, Send ch event) <$> chans)).
Proof.
  revert t. induction events as [|event events IH]; intros t; simpl.
  - unfold mret, M_ret. by rewrite after_effects_nil.
  - unfold mbind at 1. unfold M_bind. rewrite send_all_eq, IH.
    by rewrite after_effects_app.
Qed.

(** When the drain succeeds, [notifyStoreChans] sends every drained event
    to every registered channel: event by event, and for each event
    channel by channel. *)
Lemma notifyStoreChans_fan_out query resp c events derr t :
  BuildQueryBinary ArgNil = inl query →
  ABCIQuery PendingEvents_path query (tmClient t) = (Some resp, None, c) →
  IsOK (Response resp) = true →
  json_Unmarshal_Events (bytes_of (rq_Value (Response resp))) [] = (events, derr) →
  notifyStoreChans t
  = Ok (tt, after_effects (after_call t (CallABCIQuery PendingEvents_path query) c)
              (event ← events; (λ ch, Send ch event) <$> storeEventChans t)).
Proof.
  intros Hq Ha Hok Hd. unfold notifyStoreChans, mbind, M_bind.
  rewrite (sendQuery_ok _ _ query resp c) by done. rewrite Hd.
  unfold get_storeEventChans. by rewrite fan_out_eq.
Qed.

(** When the drain fails, the response that is read is nil. *)
Lemma notifyStoreChans_panics_on_transport_error query resp e c t :
  BuildQueryBinary ArgNil = inl query →
  ABCIQuery PendingEvents_path query (tmClient t) = (resp, Some e, c) →
  notifyStoreChans t = Panic.
Proof.
  intros Hq Ha. unfold notifyStoreChans, mbind, M_bind.
  by rewrite (sendQuery_transport_error _ _ query resp e c).
Qed.

End Facts.

(** *** The lemmas on the sample client *)

#[local] Existing Instance samples.sample_env.
#[local] Existing Instance samples.script_client.


(** A hash that is not stored, answered with a nil value, and answered
    with a value that decodes to the empty segment. *)
Lemma GetSegment_not_found_witness :
  (∃ t', GetSegment samples.hash_b (samples.store_over samples.healthy)
         = Ok ((None, None), t'))
  ∧ (∃ t', GetSegment samples.hash_b
             (samples.store_over samples_ext.answering_value)
           = Ok ((None, None), t')).
Proof.
  split; eexists.
  - apply (GetSegment_not_found samples.hash_b []
             {| Response := {| rq_Code := 0%N; rq_Value := None; rq_Log := "" |} |}
             samples.healthy (samples.store_over samples.healthy));
      [reflexivity..|]. by left.
  - apply (GetSegment_not_found samples.hash_b []
             {| Response := {| rq_Code := 0%N;
                               rq_Value := Some [Byte.x7b; Byte.x7d];
                               rq_Log := "" |} |}
             samples_ext.answering_value
             (samples.store_over samples_ext.answering_value));
      [reflexivity..|].
    right. exists [Byte.x7b; Byte.x7d], zero_Segment.
    split; [reflexivity|]. split; reflexivity.
Defined.

(** C4, at the input on which the code fails. The connection to the node
    is down, so the query returns an error and no response: [GetMapIDs]
    drops the error and reads the value of the missing response, which is
    a nil pointer dereference. *)
Theorem GetMapIDs_panics_when_the_query_fails :
  GetMapIDs "" (samples.store_over samples.unreachable) = Panic.
Proof. reflexivity. Qed.

(** On the same input the other read operations return the error. *)
Lemma other_reads_return_when_the_query_fails :
  (∃ t', GetSegment samples.hash_a (samples.store_over samples.unreachable)
         = Ok ((None, Some (ErrNew "connection refused")), t'))
  ∧ (∃ t', FindSegments "" (samples.store_over samples.unreachable)
           = Ok (([], Some (ErrNew "connection refused")), t'))
  ∧ (∃ t', GetEvidences samples.hash_a (samples.store_over samples.unreachable)
           = Ok (([], Some (ErrNew "connection refused")), t')).
Proof. repeat split; by eexists. Qed.

(** A rejection at the check phase whose code is not the validation code
    is a rejection by the state machine, and the error that [CreateLink]
    returns for it is not of the validation class: not every rejected
    [CreateLink] gives a validation-class error. *)
Lemma CreateLink_rejected_class_counterexample :
  ¬ (∀ result h err t',
       IsErr (CheckTx result) || IsErr (DeliverTx result) = true →
       CreateLink samples.link_a (samples.store_over (samples.answering result))
       = Ok ((h, Some err), t') →
       is_validation_class err = true).
Proof.
  intros Hclaim.
  specialize (Hclaim
    {| CheckTx := {| Code := 500%N; Log := "internal error" |};
       DeliverTx := samples.ok_tx |}
    (Some samples.hash_a) (ErrNew "internal error") _ eq_refl eq_refl).
  discriminate Hclaim.
Qed.

(** The same rejection reason at the two phases: the validation code at
    the check phase gives a bad request, at the delivery phase it gives a
    plain error. *)
Lemma CreateLink_same_code_two_phases :
  (∃ t', CreateLink samples.link_b
           (samples.store_over
              (samples.answering
                 {| CheckTx := {| Code := 400%N; Log := "reference not found" |};
                    DeliverTx := samples.ok_tx |}))
         = Ok ((Some samples.hash_a, Some (ErrBadRequest "reference not found")), t'))
  ∧ (∃ t', CreateLink samples.link_b
             (samples.store_over
                (samples.answering
                   {| CheckTx := samples.ok_tx;
                      DeliverTx := {| Code := 400%N; Log := "reference not found" |} |}))
           = Ok ((Some samples.hash_a, Some (ErrNew "reference not found")), t')).
Proof. split; eexists; cbv; reflexivity. Qed.

Lemma CreateLink_rejected_witness :
  let result := samples.rejected_at_check in
  let t := samples.store_over (samples.answering result) in
  ∃ err,
    CreateLink samples.link_b t
    = Ok ((Some samples.hash_a, Some err),
          after_call t (CallBroadcastTxCommit []) (samples.answering result))
    ∧ (IsErr (CheckTx result) = true →
       Code (CheckTx result) = CodeTypeValidation →
       err = ErrBadRequest (Log (CheckTx result)) ∧ is_validation_class err = true)
    ∧ (IsErr (CheckTx result) = true →
       Code (CheckTx result) ≠ CodeTypeValidation →
       err = ErrNew (fmt_Sprintf0 (Log (CheckTx result)))
       ∧ is_validation_class err = false).
Proof.
  intros result t.
  apply (CreateLink_rejected (env:=samples.sample_env) (client:=samples.script_client)
           samples.link_b samples.hash_a [] result (samples.answering result) t).
  - reflexivity.
  - reflexivity.
  - reflexivity.
  - reflexivity.
Defined.

(** The subscription on the three sample clients: one that is subscribed
    already, one that is refused twice, one that is always refused. *)
Lemma RetryStartWebsocket_retries_witness :
  (∃ t', ∀ fuel,
     RetryStartWebsocket (S fuel) DefaultWsRetryInterval
       (samples.store_over samples.subscribed) = Ok (None, t')
     ∧ ∃ new, trace t' = trace (samples.store_over samples.subscribed) ++ new
              ∧ filter (λ e, is_Sleep e) new = [])
  ∧ (∃ t',
       (∀ fuel, 2 < fuel →
          RetryStartWebsocket fuel DefaultWsRetryInterval
            (samples.store_over samples.flaky) = Ok (None, t'))
       ∧ ∃ new, trace t' = trace (samples.store_over samples.flaky) ++ new
                ∧ filter (λ e, is_Sleep e) new
                  = [Sleep DefaultWsRetryInterval; Sleep DefaultWsRetryInterval])
  ∧ (∀ fuel,
       RetryStartWebsocket fuel DefaultWsRetryInterval
         (samples.store_over samples.down) = OutOfFuel).
Proof.
  split; [|split].
  - apply (proj1 (RetryStartWebsocket_retries DefaultWsRetryInterval)
             (samples.store_over samples.subscribed)
             (samples.store_over samples.subscribed)
             (ErrNew "already subscribed") samples.subscribed);
      cbv; reflexivity.
  - eexists.
    apply (proj1 (proj2 (RetryStartWebsocket_retries DefaultWsRetryInterval)) 2).
    eapply attempts_retry; [cbv; reflexivity|reflexivity|].
    eapply attempts_retry; [cbv; reflexivity|reflexivity|].
    eapply attempts_last; [cbv; reflexivity|reflexivity].
  - apply (proj2 (proj2 (RetryStartWebsocket_retries DefaultWsRetryInterval))
             (λ t, tmClient t = samples.down)); [|reflexivity].
    intros [evc chans c tr next] Hc. simpl in Hc. subst c.
    eexists _, _. split; [cbv; reflexivity|]. split; reflexivity.
Defined.

End tmstore_facts.

Module postgresstore_facts.
Import cs goerr store postgresstore.

Section Facts.
Context {Stmts : Type}.
Context (newBatchStmts : SqlTx → Stmts + error).
Context (writer_CreateLink : Stmts → Link → SqlTx → (option Bytes32 * option error) * SqlTx).

Implicit Types (b : Batch Stmts) (w : World) (links : list Link).

Lemma CreateLink_fields b link :
  Links (snd (CreateLink writer_CreateLink b link)) = Links b ++ [link]
  ∧ eventChans (snd (CreateLink writer_CreateLink b link)) = eventChans b
  ∧ done (snd (CreateLink writer_CreateLink b link)) = done b.
Proof.
  unfold CreateLink. by destruct (writer_CreateLink (stmts b) link (tx b)).
Qed.

(** The batch remembers every link it was asked to create, in the order
    of the calls, whether the writer accepted it or not. *)
Lemma CreateLinks_fields b links :
  Links (CreateLinks writer_CreateLink b links) = Links b ++ links
  ∧ eventChans (CreateLinks writer_CreateLink b links) = eventChans b.
Proof.
  revert b. induction links as [|link links IH]; intros b; simpl.
  - by rewrite app_nil_r.
  - destruct (IH (snd (CreateLink writer_CreateLink b link))) as [-> ->].
    destruct (CreateLink_fields b link) as (-> & -> & _).
    by rewrite <- app_assoc.
Qed.

Lemma push_all_eq chans links w :
  push_all chans links w
  = {| table := table w;
       sent := sent w ++ ((λ ch, (ch, SavedLinks links)) <$> chans) |}.
Proof.
  revert w. induction chans as [|ch chans IH]; intros w; simpl.
  - destruct w. simpl. by rewrite app_nil_r.
  - rewrite IH. simpl. by rewrite <- app_assoc.
Qed.

(** A batch on which [CreateLink] was called with the links [links],
    written while its transaction is open: when the commit of the
    transaction fails, [Write] returns that error, the table is as it was
    and nothing was sent; when it succeeds, the rows that the writer wrote
    in the transaction reach the table together and each registered
    channel is sent one [SavedLinks] event that holds [links], in the
    order of the calls. Which rows the writer wrote is up to the writer:
    the event follows the calls, not the rows. *)
Theorem Batch_Write_atomic_single_event sqltx chans b0 links w :
  NewBatch newBatchStmts sqltx chans = inl b0 →
  let b := CreateLinks writer_CreateLink b0 links in
  tx_over (tx b) = false →
  ∃ b',
    done b' = true
    ∧ match tx_fate (tx b) with
      | Some e => Write b w = (Some e, b', w)
      | None =>
          Write b w
          = (None, b',
             {| table := table w ++ tx_rows (tx b);
                sent := sent w ++ ((λ ch, (ch, SavedLinks links)) <$> chans) |})
      end.
Proof.
  intros Hnew b Hopen.
  assert (Hb0 : Links b0 = [] ∧ eventChans b0 = chans).
  { unfold NewBatch in Hnew. destruct (newBatchStmts sqltx); [|done].
    by injection Hnew as <-. }
  destruct Hb0 as [Hl0 Hc0].
  destruct (CreateLinks_fields b0 links) as [Hl Hc]. fold b in Hl, Hc.
  rewrite Hl0 in Hl. simpl in Hl. rewrite Hc0 in Hc.
  unfold Write, Commit. rewrite Hopen.
  exists {| stmts := stmts b; Links := Links b; eventChans := eventChans b;
            done := true;
            tx := {| tx_rows := tx_rows (tx b); tx_fate := tx_fate (tx b);
                     tx_over := true |} |}.
  split; [done|].
  destruct (tx_fate (tx b)) as [e|]; [done|].
  by rewrite push_all_eq, Hl, Hc.
Qed.

(** The event does not follow what was written. When the writer refuses
    a link (it answers with an error and leaves the transaction as it
    was) and the commit succeeds all the same, [Write] returns nil and the
    event that it sends lists the refused link among the others. *)
Lemma Batch_event_lists_refused_link sqltx chans b0 pre link post w e :
  NewBatch newBatchStmts sqltx chans = inl b0 →
  let b1 := CreateLinks writer_CreateLink b0 pre in
  writer_CreateLink (stmts b1) link (tx b1) = ((None, Some e), tx b1) →
  let b := CreateLinks writer_CreateLink b0 (pre ++ link :: post) in
  tx_over (tx b) = false → tx_fate (tx b) = None →
  fst (CreateLink writer_CreateLink b1 link) = (None, Some e)
  ∧ tx (snd (CreateLink writer_CreateLink b1 link)) = tx b1
  ∧ ∃ b',
      Write b w
      = (None, b',
         {| table := table w ++ tx_rows (tx b);
            sent := sent w
                    ++ ((λ ch, (ch, SavedLinks (pre ++ link :: post))) <$> chans) |}).
Proof.
  intros Hnew b1 Hrefused b Hopen Hfate.
  assert (Hb0 : Links b0 = [] ∧ eventChans b0 = chans).
  { unfold NewBatch in Hnew. destruct (newBatchStmts sqltx); [|done].
    by injection Hnew as <-. }
  destruct Hb0 as [Hl0 Hc0].
  destruct (CreateLinks_fields b0 (pre ++ link :: post)) as [Hl Hc].
  fold b in Hl, Hc. rewrite Hl0 in Hl. simpl in Hl. rewrite Hc0 in Hc.
  split; [|split].
  - unfold CreateLink. by rewrite Hrefused.
  - unfold CreateLink. by rewrite Hrefused.
  - unfold Write, Commit. rewrite Hopen, Hfate. eexists.
    by rewrite push_all_eq, Hl, Hc.
Qed.

(** A second [Write] finds the transaction over: it returns [ErrTxDone]
    and sends nothing more. *)
Lemma Batch_Write_twice b w err b' w' :
  Write b w = (err, b', w') →
  ∃ b'', Write b' w' = (Some ErrTxDone, b'', w').
Proof.
  unfold Write, Commit. destruct (tx_over (tx b)) eqn:Hover.
  - intros [= <- <- <-]. simpl. rewrite Hover. eauto.
  - destruct (tx_fate (tx b)); intros [= <- <- <-]; simpl; eauto.
Qed.

End Facts.

(** Two links created on a batch with two channels: the commit succeeds,
    and the commit fails. *)
Lemma Batch_Write_atomic_single_event_witness :
  (∃ b0 b',
     NewBatch samples.sample_newBatchStmts (samples.open_tx None) [0; 1] = inl b0
     ∧ Write (CreateLinks samples.sample_writer b0 [samples.link_a; samples.link_b])
         samples.empty_world
       = (None, b',
          {| table := [samples.link_a; samples.link_b];
             sent := [(0, SavedLinks [samples.link_a; samples.link_b]);
                      (1, SavedLinks [samples.link_a; samples.link_b])] |}))
  ∧ (∃ b0 b',
       NewBatch samples.sample_newBatchStmts
         (samples.open_tx (Some (ErrNew "could not serialize"))) [0; 1] = inl b0
       ∧ Write (CreateLinks samples.sample_writer b0 [samples.link_a; samples.link_b])
           samples.empty_world
         = (Some (ErrNew "could not serialize"), b', samples.empty_world)).
Proof.
  split.
  - eexists. 
    destruct (Batch_Write_atomic_single_event samples.sample_newBatchStmts
                samples.sample_writer (samples.open_tx None) [0; 1] _
                [samples.link_a; samples.link_b] samples.empty_world
                eq_refl eq_refl) as (b' & _ & Hw).
    exists b'. split; [reflexivity|exact Hw].
  - eexists.
    destruct (Batch_Write_atomic_single_event samples.sample_newBatchStmts
                samples.sample_writer
                (samples.open_tx (Some (ErrNew "could not serialize"))) [0; 1] _
                [samples.link_a; samples.link_b] samples.empty_world
                eq_refl eq_refl) as (b' & _ & Hw).
    exists b'. split; [reflexivity|exact Hw].
Defined.

(** C7, at the input on which the code fails. On a batch with one
    channel, [CreateLink] is called with a link that the writer refuses
    before it writes anything, and then with a link that the writer
    writes; the commit succeeds. [Write] returns nil and the table holds
    the one link that was created, but the event that is sent lists both
    links: [CreateLink] has recorded the first link before the writer ran,
    and kept it when the writer answered with an error. *)
Theorem Batch_Write_event_lists_a_link_that_was_not_created :
  ∃ b0 b',
    NewBatch samples.sample_newBatchStmts (samples.open_tx None) [0] = inl b0
    ∧ fst (CreateLink samples.picky_writer b0 samples.link_q)
      = (None, Some (ErrNew "cannot hash link"))
    ∧ tx_rows (tx (snd (CreateLink samples.picky_writer b0 samples.link_q))) = []
    ∧ Write (CreateLinks samples.picky_writer b0 [samples.link_q; samples.link_a])
        samples.empty_world
      = (None, b',
         {| table := [samples.link_a];
            sent := [(0, SavedLinks [samples.link_q; samples.link_a])] |}).
Proof. eexists _, _. split; [reflexivity|]. repeat split; reflexivity. Qed.

End postgresstore_facts.

Module tmpop_facts.
Import cs goerr store tmpop.

Section Facts.
Context {Digest : Type}.
Context (linkHash : Link → string).
Context (validate : Link → option string).
Context (decode : list Byte.byte → option Link).
Context (combine : Digest → list string → Digest).

Implicit Types (s : State Digest) (link : Link) (h : string).

#[local] Abbreviation in_scope := (in_scope linkHash).
#[local] Abbreviation resolve_refs := (resolve_refs linkHash).
#[local] Abbreviation admit_link := (admit_link linkHash validate).
#[local] Abbreviation CheckTransaction := (CheckTransaction linkHash validate decode).
#[local] Abbreviation DeliverTransaction := (DeliverTransaction linkHash validate decode).
#[local] Abbreviation DeliverBlock := (DeliverBlock linkHash validate decode).
#[local] Abbreviation Commit := (Commit linkHash combine).

Lemma resolve_refs_None s scope refs :
  resolve_refs s scope refs = None
  ↔ ∀ ref, ref ∈ refs → in_scope s scope (ref_LinkHash ref) = true.
Proof.
  induction refs as [|ref refs IH]; simpl.
  - split; [|done]. intros _ ref Hin. by apply not_elem_of_nil in Hin.
  - destruct (in_scope s scope (ref_LinkHash ref)) eqn:Hin.
    + rewrite IH. split.
      * intros Hall ref' [->|Hin']%elem_of_cons; [done|by apply Hall].
      * intros Hall ref' Hin'. apply Hall. by right.
    + split; [done|]. intros Hall. rewrite Hall in Hin by left. done.
Qed.

Lemma resolve_refs_Some s scope refs missing :
  resolve_refs s scope refs = Some missing →
  missing ∈ refs ∧ in_scope s scope (ref_LinkHash missing) = false.
Proof.
  induction refs as [|ref refs IH]; simpl; [done|].
  destruct (in_scope s scope (ref_LinkHash ref)) eqn:Hin.
  - intros [Hm Hs]%IH. split; [by right|done].
  - intros [= <-]. split; [by left|done].
Qed.

Lemma in_scope_spec s scope h :
  in_scope s scope h = true
  ↔ h ∈ dom (committed s) ∨ h ∈ linkHash <$> staged s
    ∨ (scope = CommittedAndCheckedScope ∧ h ∈ checked s).
Proof.
  unfold tmpop.in_scope. rewrite !orb_true_iff, !bool_decide_eq_true.
  destruct scope.
  - split; [intros [[?|?]|?]; auto; done|intros [?|[?|[? ?]]]; auto; done].
  - rewrite bool_decide_eq_true.
    split; [intros [[?|?]|?]; auto|intros [?|[?|[? ?]]]; auto].
Qed.

(** The committed scope is part of the other scope. *)
Lemma in_scope_committed_checked s h :
  in_scope s CommittedScope h = true → in_scope s CommittedAndCheckedScope h = true.
Proof. rewrite !in_scope_spec. intros [?|[?|[? ?]]]; auto; done. Qed.

(** The committed scope only reads the committed store and the staged
    links. *)
Lemma in_scope_committed_ext s s' h :
  committed s' = committed s → staged s' = staged s →
  in_scope s' CommittedScope h = in_scope s CommittedScope h.
Proof. unfold tmpop.in_scope. by intros -> ->. Qed.

Lemma CheckTransaction_accept txBytes link s :
  decode txBytes = Some link →
  fst (CheckTransaction txBytes s) = Accept →
  snd (CheckTransaction txBytes s)
  = {| mode := mode s; committed := committed s; staged := staged s;
       checked := {[linkHash link]} ∪ checked s;
       pending := pending s; digest := digest s |}.
Proof.
  unfold tmpop.CheckTransaction. intros ->.
  by destruct (admit_link s link Speculative).
Qed.

Lemma DeliverTransaction_accept txBytes link s :
  decode txBytes = Some link →
  fst (DeliverTransaction txBytes s) = Accept →
  snd (DeliverTransaction txBytes s)
  = {| mode := mode s; committed := committed s; staged := staged s ++ [link];
       checked := checked s; pending := pending s; digest := digest s |}.
Proof.
  unfold tmpop.DeliverTransaction. intros ->.
  by destruct (admit_link s link Final).
Qed.

(** A rejected transaction has no effect, at either phase. *)
Lemma rejected_no_effect txBytes s reason :
  (fst (CheckTransaction txBytes s) = Reject reason →
   snd (CheckTransaction txBytes s) = s)
  ∧ (fst (DeliverTransaction txBytes s) = Reject reason →
     snd (DeliverTransaction txBytes s) = s).
Proof.
  unfold tmpop.CheckTransaction, tmpop.DeliverTransaction.
  destruct (decode txBytes) as [link|]; [|done].
  destruct (admit_link s link Speculative), (admit_link s link Final); done.
Qed.

(** The staged links after a block are those before it followed by the
    links of the accepted transactions, in delivery order; the pending
    events are not touched by deliveries. *)
Lemma DeliverBlock_staged txs s :
  staged (snd (DeliverBlock txs s))
  = staged s ++ accepted_links decode txs (fst (DeliverBlock txs s))
  ∧ pending (snd (DeliverBlock txs s)) = pending s.
Proof.
  revert s. induction txs as [|txBytes txs IH]; intros s; simpl.
  - by rewrite app_nil_r.
  - destruct (tmpop.DeliverTransaction linkHash validate decode txBytes s) as [r s1] eqn:Hd.
    specialize (IH s1).
    destruct (tmpop.DeliverBlock linkHash validate decode txs s1) as [rs s2] eqn:Hb.
    simpl in *. destruct IH as [-> ->].
    unfold tmpop.DeliverTransaction in Hd.
    destruct (decode txBytes) as [link|] eqn:Hdec.
    + destruct (admit_link s link Final); injection Hd as <- <-; simpl; [done|].
      by rewrite <- app_assoc.
    + by injection Hd as <- <-.
Qed.

(** Deliveries do not write to the committed store or to the
    checked-set. *)
Lemma DeliverBlock_committed txs s :
  committed (snd (DeliverBlock txs s)) = committed s
  ∧ checked (snd (DeliverBlock txs s)) = checked s.
Proof.
  revert s. induction txs as [|txBytes txs IH]; intros s; simpl; [done|].
  destruct (tmpop.DeliverTransaction linkHash validate decode txBytes s) as [r s1] eqn:Hd.
  specialize (IH s1).
  destruct (tmpop.DeliverBlock linkHash validate decode txs s1) as [rs s2] eqn:Hb.
  simpl in *. destruct IH as [-> ->].
  unfold tmpop.DeliverTransaction in Hd.
  destruct (decode txBytes) as [link|]; [|by injection Hd as <- <-].
  destruct (admit_link s link Final); by injection Hd as <- <-.
Qed.

(** What is in the committed scope stays in it while the block goes on. *)
Lemma in_scope_DeliverBlock txs s h :
  in_scope s CommittedScope h = true →
  in_scope (snd (DeliverBlock txs s)) CommittedScope h = true.
Proof.
  rewrite !in_scope_spec.
  destruct (DeliverBlock_staged txs s) as [-> _].
  destruct (DeliverBlock_committed txs s) as [-> _].
  intros [Hc|[Hst|[? _]]]; [by left| |done].
  right. left. rewrite fmap_app. apply elem_of_app. by left.
Qed.

(** A link that passes the rule engine is delivered when all its
    references are in the committed scope ... *)
Lemma DeliverTransaction_resolved txBytes link s :
  decode txBytes = Some link → validate link = None →
  (∀ ref, ref ∈ Refs (Meta link) → in_scope s CommittedScope (ref_LinkHash ref) = true) →
  fst (DeliverTransaction txBytes s) = Accept.
Proof.
  intros Hd Hvalid Hall. apply resolve_refs_None in Hall.
  unfold tmpop.DeliverTransaction. rewrite Hd. unfold tmpop.admit_link, resolve.
  rewrite Hvalid. simpl scope_of. by rewrite Hall.
Qed.

(** ... and is rejected, without effect, for its first reference that is
    not. *)
Lemma DeliverTransaction_unresolved txBytes link s :
  decode txBytes = Some link → validate link = None →
  (∃ ref, ref ∈ Refs (Meta link) ∧ in_scope s CommittedScope (ref_LinkHash ref) = false) →
  ∃ missing,
    DeliverTransaction txBytes s = (Reject (ReferenceError missing), s)
    ∧ missing ∈ Refs (Meta link)
    ∧ in_scope s CommittedScope (ref_LinkHash missing) = false.
Proof.
  intros Hd Hvalid (ref & Hin & Hout).
  destruct (resolve_refs s CommittedScope (Refs (Meta link))) as [missing|] eqn:Hr.
  - exists missing. destruct (resolve_refs_Some _ _ _ _ Hr) as [Hm Hs].
    split; [|done].
    unfold tmpop.DeliverTransaction. rewrite Hd. unfold tmpop.admit_link, resolve.
    rewrite Hvalid. simpl scope_of. by rewrite Hr.
  - rewrite resolve_refs_None in Hr. by rewrite (Hr ref Hin) in Hout.
Qed.

(** C1. Two links, the second declaring a reference to the first, which
    is not committed; the second link is otherwise admissible (the rule
    engine accepts it and its other references are committed). If the
    first link was only checked, the check of the second is accepted and
    its delivery, before or after that check, is rejected without effect,
    with the validation code and the reference to the first link as the
    reason; if the first link was delivered earlier in the block (other
    deliveries may lie in between), the delivery of the second is
    accepted. *)
Theorem two_phase_divergence s tx1 tx2 L1 L2 :
  decode tx1 = Some L1 → decode tx2 = Some L2 →
  validate L2 = None →
  linkHash L1 ∈ ref_LinkHash <$> Refs (Meta L2) →
  in_scope s CommittedScope (linkHash L1) = false →
  (∀ ref, ref ∈ Refs (Meta L2) → ref_LinkHash ref ≠ linkHash L1 →
          in_scope s CommittedScope (ref_LinkHash ref) = true) →
  (fst (CheckTransaction tx1 s) = Accept →
   let s1 := snd (CheckTransaction tx1 s) in
   let s2 := snd (CheckTransaction tx2 s1) in
   fst (CheckTransaction tx2 s1) = Accept
   ∧ ∀ s', s' = s1 ∨ s' = s2 →
       ∃ missing,
         DeliverTransaction tx2 s' = (Reject (ReferenceError missing), s')
         ∧ missing ∈ Refs (Meta L2) ∧ ref_LinkHash missing = linkHash L1
         ∧ result_code (fst (DeliverTransaction tx2 s')) = CodeTypeValidation)
  ∧ (fst (DeliverTransaction tx1 s) = Accept →
     ∀ txs,
       fst (DeliverTransaction tx2
              (snd (DeliverBlock txs (snd (DeliverTransaction tx1 s))))) = Accept).
Proof.
  intros Hd1 Hd2 Hvalid Href Hnot Hothers. split.
  - intros Hacc1 s1 s2.
    assert (Hs1 := CheckTransaction_accept tx1 L1 s Hd1 Hacc1). fold s1 in Hs1.
    assert (Hres1 : resolve_refs s1 CommittedAndCheckedScope (Refs (Meta L2)) = None).
    { apply resolve_refs_None. intros ref Hin.
      destruct (decide (ref_LinkHash ref = linkHash L1)) as [->|Hne].
      - apply in_scope_spec. right. right. split; [done|].
        rewrite Hs1. simpl. apply elem_of_union. left. by apply elem_of_singleton.
      - apply in_scope_committed_checked.
        rewrite (in_scope_committed_ext s s1) by (by rewrite Hs1). by apply Hothers. }
    assert (Hacc2 : fst (CheckTransaction tx2 s1) = Accept).
    { unfold tmpop.CheckTransaction. rewrite Hd2. unfold tmpop.admit_link, resolve.
      rewrite Hvalid. simpl scope_of. by rewrite Hres1. }
    assert (Hs2 := CheckTransaction_accept tx2 L2 s1 Hd2 Hacc2). fold s2 in Hs2.
    split; [done|]. intros s' Hs'.
    assert (Hscope : ∀ h, in_scope s' CommittedScope h = in_scope s CommittedScope h).
    { intros h. apply in_scope_committed_ext;
        destruct Hs' as [->| ->]; by rewrite ?Hs2, Hs1. }
    destruct (DeliverTransaction_unresolved tx2 L2 s' Hd2 Hvalid)
      as (missing & Hrej & Hin & Hout).
    { apply list_elem_of_fmap in Href as (ref & Hh & Hin).
      exists ref. split; [done|]. by rewrite Hscope, <- Hh. }
    exists missing. rewrite Hrej. repeat split; try done.
    destruct (decide (ref_LinkHash missing = linkHash L1)) as [|Hne]; [done|].
    rewrite Hscope in Hout. by rewrite Hothers in Hout.
  - intros Hacc1 txs.
    assert (Hs1 := DeliverTransaction_accept tx1 L1 s Hd1 Hacc1).
    set (s1 := snd (DeliverTransaction tx1 s)) in *.
    apply (DeliverTransaction_resolved tx2 L2); [done..|].
    intros ref Hin. apply in_scope_DeliverBlock.
    destruct (decide (ref_LinkHash ref = linkHash L1)) as [->|Hne].
    + apply in_scope_spec. right. left. rewrite Hs1. simpl.
      rewrite fmap_app. apply elem_of_app. right. by apply list_elem_of_singleton.
    + specialize (Hothers ref Hin Hne).
      apply in_scope_spec in Hothers as [Hc|[Hst|[? _]]]; [| |done];
        apply in_scope_spec; rewrite Hs1; simpl.
      * by left.
      * right. left. rewrite fmap_app. apply elem_of_app. by left.
Qed.

(** C2. A block delivered on a machine with nothing staged and no event
    pending, of which at least one transaction was accepted, and then
    committed: the first drain returns one [SavedLinks] event that holds
    the links of the accepted transactions, in delivery order, and the
    drain that follows returns nothing. *)
Theorem event_completeness s txs :
  staged s = [] → pending s = [] →
  let delivered := DeliverBlock txs s in
  let links := accepted_links decode txs (fst delivered) in
  links ≠ [] →
  let s' := snd (Commit (snd delivered)) in
  fst (DrainPendingEvents s') = [SavedLinks links]
  ∧ fst (DrainPendingEvents (snd (DrainPendingEvents s'))) = [].
Proof.
  intros Hst Hp delivered links Hne s'.
  destruct (DeliverBlock_staged txs s) as [Hstaged Hpending].
  fold delivered in Hstaged, Hpending. fold links in Hstaged.
  rewrite Hst in Hstaged. simpl in Hstaged. rewrite Hp in Hpending.
  subst s'. unfold tmpop.Commit. rewrite Hstaged.
  destruct links as [|link links']; [done|]. simpl.
  by rewrite Hpending.
Qed.

Lemma flush_last links link (m : gmap string Segment) :
  flush linkHash (links ++ [link]) m !! linkHash link
  = Some (segment_of linkHash link).
Proof.
  revert m. induction links as [|l links IH]; intros m; simpl.
  - apply lookup_insert_eq.
  - apply IH.
Qed.

Lemma Commit_flushes s :
  staged s ≠ [] →
  committed (snd (Commit s)) = flush linkHash (staged s) (committed s).
Proof. unfold tmpop.Commit. by destruct (staged s). Qed.

(** A link that is delivered and committed can be read back by its hash,
    with no evidence yet. *)
Lemma delivered_link_is_stored txBytes link s :
  decode txBytes = Some link →
  fst (DeliverTransaction txBytes s) = Accept →
  GetSegment (linkHash link) (snd (Commit (snd (DeliverTransaction txBytes s))))
  = Some (segment_of linkHash link).
Proof.
  intros Hd Hacc. rewrite (DeliverTransaction_accept txBytes link s Hd Hacc).
  unfold GetSegment. rewrite Commit_flushes; simpl.
  - apply flush_last.
  - intros Hnil. by apply app_eq_nil in Hnil as [_ ?].
Qed.

(** A block of which no transaction was accepted leaves no event. *)
Lemma no_event_for_empty_block s txs :
  staged s = [] → pending s = [] →
  accepted_links decode txs (fst (DeliverBlock txs s)) = [] →
  fst (DrainPendingEvents (snd (Commit (snd (DeliverBlock txs s))))) = [].
Proof.
  intros Hst Hp Hnone.
  destruct (DeliverBlock_staged txs s) as [Hstaged Hpending].
  rewrite Hst, Hnone in Hstaged. simpl in Hstaged. rewrite Hp in Hpending.
  unfold tmpop.Commit. rewrite Hstaged. simpl. done.
Qed.

End Facts.

#[local] Abbreviation CheckTx :=
  (CheckTransaction samples.sample_linkHash samples.sample_validate samples.sample_decode).
#[local] Abbreviation DeliverTx :=
  (DeliverTransaction samples.sample_linkHash samples.sample_validate samples.sample_decode).

(** The scenario of the two sample links on a fresh machine: [link_b]
    refers to [link_a]. *)
Lemma two_phase_divergence_witness :
  let tx_a := [Byte.x01] in
  let tx_b := [Byte.x02] in
  (fst (CheckTx tx_a samples.genesis) = Accept
   ∧ fst (CheckTx tx_b (snd (CheckTx tx_a samples.genesis))) = Accept
   ∧ result_code
       (fst (DeliverTx tx_b (snd (CheckTx tx_b (snd (CheckTx tx_a samples.genesis))))))
     = CodeTypeValidation)
  ∧ (fst (DeliverTx tx_a samples.genesis) = Accept
     ∧ fst (DeliverTx tx_b (snd (DeliverTx tx_a samples.genesis))) = Accept).
Proof.
  intros tx_a tx_b.
  assert (Hnot : in_scope samples.sample_linkHash samples.genesis CommittedScope
                   (samples.sample_linkHash samples.link_a) = false)
    by (vm_compute; reflexivity).
  assert (Hothers : ∀ ref, ref ∈ Refs (Meta samples.link_b) →
            ref_LinkHash ref ≠ samples.sample_linkHash samples.link_a →
            in_scope samples.sample_linkHash samples.genesis CommittedScope
              (ref_LinkHash ref) = true).
  { intros ref Hin Hne. apply list_elem_of_singleton in Hin as ->. by destruct Hne. }
  assert (Href : samples.sample_linkHash samples.link_a
                 ∈ ref_LinkHash <$> Refs (Meta samples.link_b)) by (by left).
  destruct (two_phase_divergence samples.sample_linkHash samples.sample_validate
              samples.sample_decode samples.genesis tx_a tx_b
              samples.link_a samples.link_b eq_refl eq_refl eq_refl Href Hnot Hothers)
    as [Hchecked Hdelivered].
  assert (Hca : fst (CheckTx tx_a samples.genesis) = Accept) by (vm_compute; reflexivity).
  assert (Hda : fst (DeliverTx tx_a samples.genesis) = Accept) by (vm_compute; reflexivity).
  destruct (Hchecked Hca) as (Hcb & Hrej).
  destruct (Hrej _ (or_intror eq_refl)) as (missing & _ & _ & _ & Hcode).
  split; [split; [exact Hca|split; [exact Hcb|exact Hcode]]|].
  split; [exact Hda|exact (Hdelivered Hda [])].
Defined.

(** A block of the two sample links on a fresh machine. *)
Lemma event_completeness_witness :
  let s' := snd (Commit samples.sample_linkHash samples.sample_combine
                   (snd (DeliverBlock samples.sample_linkHash samples.sample_validate
                           samples.sample_decode [[Byte.x01]; [Byte.x02]]
                           samples.genesis))) in
  fst (DrainPendingEvents s') = [SavedLinks [samples.link_a; samples.link_b]]
  ∧ fst (DrainPendingEvents (snd (DrainPendingEvents s'))) = [].
Proof.
  apply (event_completeness samples.sample_linkHash samples.sample_validate
           samples.sample_decode samples.sample_combine samples.genesis
           [[Byte.x01]; [Byte.x02]] eq_refl eq_refl).
  vm_compute. discriminate.
Defined.

End tmpop_facts.

(** ** More on the composite validator *)

Module validator_props.
Import cs goerr validator validator_facts.

Section Props.
Context {SegmentReader : Type}.
Context (Sum256 : list Byte.byte → Bytes32).

Implicit Types (v : multiValidator SegmentReader) (c : Validator SegmentReader).
Implicit Types (vs : list (Validator SegmentReader)) (l : Link) (r : SegmentReader).

Lemma Hash_loop_ext vs vs' b :
  Hash <$> vs = Hash <$> vs' → Hash_loop vs b = Hash_loop vs' b.
Proof.
  revert vs' b. induction vs as [|c vs IH]; intros [|c' vs'] b Heq; try discriminate.
  - done.
  - rewrite !fmap_cons in Heq. injection Heq as Hc Hvs. simpl. rewrite Hc.
    destruct (Hash c') as [h|e]; [by apply IH|done].
Qed.

(** The hash of a composite is a function of the hashes of its children,
    in their order: two composites whose children have the same hashes
    (or the same failures) one by one have the same hash, whatever else
    the children do. *)
Theorem multiValidator_Hash_of_child_hashes vs vs' :
  Hash <$> vs = Hash <$> vs' →
  Hash (NewMultiValidator Sum256 vs) = Hash (NewMultiValidator Sum256 vs').
Proof.
  intros Heq. simpl. unfold multiValidator_Hash. simpl.
  by rewrite (Hash_loop_ext vs vs').
Qed.

(** A composite has a hash exactly when every child has one. *)
Theorem multiValidator_Hash_succeeds_iff vs :
  (∃ h, Hash (NewMultiValidator Sum256 vs) = inl h)
  ↔ ∀ c, c ∈ vs → ∃ h, Hash c = inl h.
Proof.
  split.
  - intros [h Hh] c Hin. destruct (Hash c) as [hc|e] eqn:Hc; [by eauto|].
    destruct (multiValidator_Hash_any_failure Sum256 vs c e Hin Hc)
      as (c' & e' & _ & _ & Hfail).
    simpl in Hh. by rewrite Hfail in Hh.
  - intros Hall.
    destruct (Hash_children_cases vs)
      as [[hs Hhs]|(pre & c & post & hs & e & -> & _ & Hc)].
    + eexists. simpl. unfold multiValidator_Hash. simpl.
      by rewrite (Hash_loop_ok _ hs).
    + destruct (Hall c) as [h Hh]; [apply elem_of_app; right; left|].
      by rewrite Hh in Hc.
Qed.

Lemma Validate_loop_None cs r l :
  Validate_loop cs r l = None ↔ Forall (λ c, Validate c r l = None) cs.
Proof.
  split; [|apply Validate_loop_all_accept].
  induction cs as [|c cs IH]; simpl; [by constructor|].
  destruct (Validate c r l) eqn:Hc; [done|]. intros Hrest. constructor; auto.
Qed.

Lemma Validate_loop_Some cs r l e :
  Validate_loop cs r l = Some e → ∃ c, c ∈ cs ∧ Validate c r l = Some e.
Proof.
  induction cs as [|c cs IH]; simpl; [done|].
  destruct (Validate c r l) as [e'|] eqn:Hc.
  - intros [= ->]. exists c. split; [by left|done].
  - intros (c' & Hin & Hc')%IH. exists c'. split; [by right|done].
Qed.

(** A composite accepts a link exactly when at least one child claims it
    and every child that claims it accepts it. *)
Theorem multiValidator_Validate_accepts_iff v r l :
  multiValidator_Validate v r l = None
  ↔ (∃ c, c ∈ validators v ∧ ShouldValidate c l = true)
    ∧ (∀ c, c ∈ validators v → ShouldValidate c l = true → Validate c r l = None).
Proof.
  unfold multiValidator_Validate. rewrite matchValidators_filter.
  set (claiming := filter (λ c, ShouldValidate c l) (validators v)).
  assert (Hin : ∀ c, c ∈ claiming ↔ c ∈ validators v ∧ ShouldValidate c l = true).
  { intros c. unfold claiming. rewrite list_elem_of_filter.
    rewrite Is_true_true. tauto. }
  destruct (decide (length claiming = 0)) as [Hlen|Hlen].
  - split; [done|]. intros [(c & Hc & Hs) _].
    apply nil_length_inv in Hlen. assert (Hc' : c ∈ claiming) by by apply Hin.
    rewrite Hlen in Hc'. by apply not_elem_of_nil in Hc'.
  - rewrite Validate_loop_None, Forall_forall. split.
    + intros Hall. split.
      * destruct claiming as [|c cs] eqn:Hcl; [done|].
        exists c. apply Hin. by left.
      * intros c Hc Hs. apply Hall. by apply Hin.
    + intros [_ Hall] c Hc. apply Hin in Hc as [Hc Hs]. by apply Hall.
Qed.

(** The error of a composite is the error of one of the children that
    claim the link, or, when no child claims it, the error that names the
    process and the type of the link. *)
Theorem multiValidator_Validate_error_origin v r l e :
  multiValidator_Validate v r l = Some e →
  ((∀ c, c ∈ validators v → ShouldValidate c l = false)
   ∧ e = ErrNew (no_match_message l))
  ∨ (∃ c, c ∈ validators v ∧ ShouldValidate c l = true ∧ Validate c r l = Some e).
Proof.
  unfold multiValidator_Validate. rewrite matchValidators_filter.
  destruct (decide _) as [Hlen|_].
  - intros [= <-]. left. split; [|done]. intros c Hc.
    apply nil_length_inv in Hlen.
    destruct (ShouldValidate c l) eqn:Hs; [|done].
    assert (Hin : c ∈ filter (λ c, ShouldValidate c l) (validators v)).
    { apply list_elem_of_filter. split; [by rewrite Hs|done]. }
    rewrite Hlen in Hin. by apply not_elem_of_nil in Hin.
  - intros (c & Hin & Hc)%Validate_loop_Some. right.
    apply list_elem_of_filter in Hin as [Hs Hin]. exists c.
    split; [done|]. split; [by apply Is_true_true|done].
Qed.

(** A composite whose only child is a composite validates like that
    child: the child claims every link. Its hash is not the hash of the
    child, but the digest of it. *)
Theorem multiValidator_nested vs r l :
  Validate (NewMultiValidator Sum256 [NewMultiValidator Sum256 vs]) r l
  = Validate (NewMultiValidator Sum256 vs) r l
  ∧ Hash (NewMultiValidator Sum256 [NewMultiValidator Sum256 vs])
    = match Hash (NewMultiValidator Sum256 vs) with
      | inl h => inl (Sum256 (Bytes32_slice h))
      | inr e => inr (ErrWithStack e)
      end.
Proof.
  split.
  - simpl. unfold multiValidator_Validate at 1. unfold matchValidators. simpl.
    by destruct (multiValidator_Validate {| validators := vs |} r l).
  - simpl. unfold multiValidator_Hash at 1. simpl.
    by destruct (multiValidator_Hash Sum256 {| validators := vs |}).
Qed.

End Props.

Lemma multiValidator_Hash_of_child_hashes_witness :
  Hash (NewMultiValidator samples.first_byte_digest
          [samples.accepting; samples.rejecting])
  = Hash (NewMultiValidator samples.first_byte_digest
            [samples_ext.same_hash_rejecting; samples.rejecting]).
Proof.
  apply (multiValidator_Hash_of_child_hashes samples.first_byte_digest
           [samples.accepting; samples.rejecting]
           [samples_ext.same_hash_rejecting; samples.rejecting]).
  reflexivity.
Defined.

Lemma multiValidator_Validate_error_origin_witness :
  ((∀ c, c ∈ [samples.accepting; samples.rejecting] →
         ShouldValidate c samples.link_a = false)
   ∧ ErrNew "bad state" = ErrNew (no_match_message samples.link_a))
  ∨ (∃ c, c ∈ [samples.accepting; samples.rejecting]
          ∧ ShouldValidate c samples.link_a = true
          ∧ Validate c tt samples.link_a = Some (ErrNew "bad state")).
Proof.
  apply (multiValidator_Validate_error_origin
           {| validators := [samples.accepting; samples.rejecting] |}
           tt samples.link_a (ErrNew "bad state")).
  reflexivity.
Defined.

End validator_props.

(** ** More on the store over Tendermint *)

Module tmstore_props.
Import cs goerr store abci tmstore tmstore_ext tmstore_facts.

Section Props.
Context `{env : Env} `{client : Client C}.

Implicit Types (t : TMStore C) (c : C) (linkHash : Bytes32).

Lemma read_only_refl path t : read_only path t t.
Proof.
  split; [done|]. split; [done|]. exists []. split; [by rewrite app_nil_r|by left].
Qed.

Lemma read_only_after_call path query c t :
  read_only path t (after_call t (CallABCIQuery path query) c).
Proof.
  split; [done|]. split; [done|]. exists [CallABCIQuery path query].
  split; [done|]. right. by exists query.
Qed.

Lemma sendQuery_read_only name args t res err t' :
  sendQuery name args t = Ok ((res, err), t') → read_only name t t'.
Proof.
  intros Hs. apply sendQuery_inv in Hs as [_ [[-> _]|(query & c & _ & ->)]].
  - apply read_only_refl.
  - apply read_only_after_call.
Qed.

(** [sendQuery] comes back with a response or with an error, never with
    both and never with neither; whatever it answers, it has sent at most
    the one query and has not touched the channels. *)
Theorem sendQuery_response_or_error name args t res err t' :
  sendQuery name args t = Ok ((res, err), t') →
  (is_Some res ↔ err = None) ∧ read_only name t t'.
Proof.
  intros Hs. split.
  - by apply sendQuery_inv in Hs as [Hxor _].
  - by apply sendQuery_read_only in Hs.
Qed.

(** The four read operations only read: when one of them returns, it has
    sent at most one query, on its own path, and nothing else; no
    transaction was broadcast and nothing was sent on a channel. *)
Theorem reads_are_read_only linkHash filter t :
  (∀ r t', GetSegment linkHash t = Ok (r, t') → read_only GetSegment_path t t')
  ∧ (∀ r t', FindSegments filter t = Ok (r, t') → read_only FindSegments_path t t')
  ∧ (∀ r t', GetEvidences linkHash t = Ok (r, t') → read_only GetEvidences_path t t')
  ∧ (∀ r t', GetMapIDs filter t = Ok (r, t') → read_only GetMapIDs_path t t').
Proof.
  (split; [|split; [|split]]); intros r t';
    unfold GetSegment, FindSegments, GetEvidences, GetMapIDs, mbind, M_bind;
    (destruct (sendQuery _ _ t) as [[[res err] t1]| |] eqn:Hs; [|done..]);
    apply sendQuery_read_only in Hs as Hro.
  - destruct err; [by intros [= <- <-]|]. destruct res as [resp|]; [|done].
    destruct (rq_Value resp) as [value|]; [|by intros [= <- <-]].
    destruct (json_Unmarshal_Segment value zero_Segment) as [seg [e|]];
      [by intros [= <- <-]|].
    destruct (Segment_IsEmpty seg); by intros [= <- <-].
  - destruct err; [by intros [= <- <-]|]. destruct res as [resp|]; [|done].
    by intros [= <- <-].
  - destruct err; [by intros [= <- <-]|]. destruct res as [resp|]; [|done].
    destruct (rq_Value resp) as [value|]; by intros [= <- <-].
  - destruct res as [resp|]; [|done]. by intros [= <- <-].
Qed.

(** The three read operations that check the error of their query return
    for every client that keeps its contract (it answers a query with a
    response or with an error). *)
Theorem checked_reads_return linkHash filter t :
  (∀ path query, fst (ABCIQuery path query (tmClient t)) ≠ (None, None)) →
  (∃ r t', GetSegment linkHash t = Ok (r, t'))
  ∧ (∃ r t', FindSegments filter t = Ok (r, t'))
  ∧ (∃ r t', GetEvidences linkHash t = Ok (r, t')).
Proof.
  intros Hc. split; [|split].
  - apply GetSegment_returns. intros query. apply Hc.
  - apply FindSegments_returns. intros query. apply Hc.
  - apply GetEvidences_returns. intros query. apply Hc.
Qed.

(** [notifyStoreChans] returns only when the drain was answered with an
    OK response; after every other answer (an error of the transport, a
    response that is not OK, arguments that cannot be encoded) it reads a
    nil response and panics. *)
Theorem notifyStoreChans_returns_or_panics t :
  (∃ query resp c t',
      BuildQueryBinary ArgNil = inl query
      ∧ ABCIQuery PendingEvents_path query (tmClient t) = (Some resp, None, c)
      ∧ IsOK (Response resp) = true
      ∧ notifyStoreChans t = Ok (tt, t'))
  ∨ notifyStoreChans t = Panic.
Proof.
  unfold notifyStoreChans, mbind, M_bind, sendQuery.
  destruct (BuildQueryBinary ArgNil) as [query|e] eqn:Hq; [|by right].
  unfold mbind, M_bind. rewrite call_eq.
  destruct (ABCIQuery PendingEvents_path query (tmClient t)) as [[resp e] c] eqn:Ha.
  simpl. destruct e as [e|]; [by right|].
  destruct resp as [resp|]; [|by right].
  destruct (IsOK (Response resp)) eqn:Hok; simpl; [|by right].
  left. exists query, resp, c.
  destruct (json_Unmarshal_Events _ _) as [events derr].
  unfold get_storeEventChans. rewrite fan_out_eq. eauto.
Qed.

Lemma CreateLink_shape link t :
  match Link_Hash link with
  | inr e => CreateLink link t = Ok ((None, Some e), t)
  | inl hv =>
      (∃ e, CreateLink link t = Ok ((Some hv, Some e), t))
      ∨ (∃ tx c err,
           CreateLink link t
           = Ok ((Some hv, err), after_call t (CallBroadcastTxCommit tx) c))
      ∨ CreateLink link t = Panic
  end.
Proof.
  unfold CreateLink. destruct (Link_Hash link) as [hv|e]; [|done].
  unfold mbind, M_bind, broadcastTx.
  destruct (json_Marshal_Tx _) as [txBytes|e]; [|left; by eauto].
  unfold mbind, M_bind. rewrite call_eq.
  destruct (BroadcastTxCommit txBytes (tmClient t)) as [[result e] c]. simpl.
  destruct e as [e|]; [right; left; by eauto|].
  destruct result as [result|]; [|right; by right].
  right. left. exists txBytes, c.
  destruct (IsErr (CheckTx result)); [destruct (decide _); by eauto|].
  destruct (IsErr (DeliverTx result)); by eauto.
Qed.

(** With no channel registered, the pending events that
    [notifyStoreChans] drains from the state machine go nowhere: the
    query is sent and nothing else happens. *)
Theorem notifyStoreChans_without_channels query resp c t :
  storeEventChans t = [] →
  BuildQueryBinary ArgNil = inl query →
  ABCIQuery PendingEvents_path query (tmClient t) = (Some resp, None, c) →
  IsOK (Response resp) = true →
  notifyStoreChans t
  = Ok (tt, after_call t (CallABCIQuery PendingEvents_path query) c).
Proof.
  intros Hnone Hq Ha Hok. unfold notifyStoreChans, mbind, M_bind.
  rewrite (sendQuery_ok _ _ query resp c) by done.
  destruct (json_Unmarshal_Events _ _) as [events derr].
  unfold get_storeEventChans. rewrite fan_out_eq. simpl. rewrite Hnone.
  assert (Hnil : (event ← events; (λ ch, Send ch event) <$> ([] : list Chan)) = [])
    by (induction events; done).
  by rewrite Hnil, after_effects_nil.
Qed.

(** What [CreateLink] does to the outside: it never sends on a channel;
    a link that cannot be hashed is not broadcast at all and gives no
    hash; otherwise the hash of the link is returned, with or without an
    error, after at most one broadcast. *)
Theorem CreateLink_broadcasts_at_most_once link t h err t' :
  CreateLink link t = Ok ((h, err), t') →
  storeEventChans t' = storeEventChans t
  ∧ ∃ new,
      trace t' = trace t ++ new
      ∧ (new = [] ∨ ∃ tx, new = [CallBroadcastTxCommit tx])
      ∧ match Link_Hash link with
        | inr e => h = None ∧ err = Some e ∧ new = []
        | inl hv => h = Some hv
        end.
Proof.
  intros Hrun. pose proof (CreateLink_shape link t) as Hshape.
  destruct (Link_Hash link) as [hv|e].
  - destruct Hshape as [[e He]|[(tx & c & err' & He)|He]];
      rewrite He in Hrun; [| |done]; injection Hrun as <- <- <-.
    + split; [done|]. exists []. rewrite app_nil_r. split; [done|].
      split; [by left|done].
    + split; [done|]. exists [CallBroadcastTxCommit tx]. split; [done|].
      split; [right; by eauto|done].
  - rewrite Hshape in Hrun. injection Hrun as <- <- <-.
    split; [done|]. exists []. rewrite app_nil_r. split; [done|].
    split; [by left|done].
Qed.

(** A channel registered with [AddStoreEventChannel] is served after the
    channels registered before it: the next evidence that is added is sent
    to those, in their order, and then to the new one. *)
Theorem registered_channel_is_served_last linkHash evidence storeChan query resp c t :
  BuildQueryBinary (ArgAddEvidence linkHash evidence) = inl query →
  ABCIQuery AddEvidence_path query (tmClient t) = (Some resp, None, c) →
  IsOK (Response resp) = true →
  ∃ t1 t',
    AddStoreEventChannel storeChan t = Ok (tt, t1)
    ∧ AddEvidence linkHash evidence t1 = Ok (None, t')
    ∧ storeEventChans t' = storeEventChans t ++ [storeChan]
    ∧ trace t'
      = trace t
        ++ CallABCIQuery AddEvidence_path query
           :: ((λ ch, Send ch (SavedEvidences {[Bytes32_String linkHash := evidence]}))
                 <$> storeEventChans t ++ [storeChan]).
Proof.
  intros Hq Ha Hok. eexists _, _. split; [reflexivity|].
  split; [by apply (AddEvidence_ok _ _ query resp c)|].
  split; [done|]. simpl. by rewrite <- app_assoc.
Qed.

(** A client that is not running and cannot be started: [StartWebsocket]
    returns the error of the start, and has made no channel, started no
    goroutine and subscribed to nothing. *)
Theorem StartWebsocket_cannot_start t e c :
  IsRunning (tmClient t) = false →
  Start (tmClient t) = (Some e, c) →
  e ≠ ErrAlreadyStarted →
  StartWebsocket t = Ok (Some e, after_call t CallStart c).
Proof.
  intros Hrun Hstart Hne.
  unfold StartWebsocket, start_client, mbind, M_bind, client_IsRunning.
  rewrite Hrun. simpl. rewrite call_eq, Hstart. simpl.
  by rewrite decide_False by done.
Qed.

(** Once the client is started, every call of [StartWebsocket] makes a new
    channel, starts a goroutine that reads from it and subscribes with it,
    whether the subscription then succeeds or not: a failed attempt leaves
    its channel and its goroutine behind. *)
Theorem StartWebsocket_new_channel_each_time t t1 :
  start_client t = Ok (None, t1) →
  ∃ r t',
    StartWebsocket t = Ok (r, t')
    ∧ trace t'
      = trace t1 ++ [MakeChan (nextChan t1); GoForward (nextChan t1);
                     CallSubscribe Name (nextChan t1)]
    ∧ tmEventChan t' = Some (nextChan t1)
    ∧ nextChan t' = S (nextChan t1)
    ∧ (r = None
       ↔ attempt_ok (fst (Subscribe Name (nextChan t1) (tmClient t1))) = true).
Proof.
  intros Hs. unfold StartWebsocket. unfold mbind at 1. unfold M_bind. rewrite Hs.
  unfold mbind, M_bind, make_tmEventChan, emit. simpl. rewrite call_eq. simpl.
  destruct (Subscribe Name (nextChan t1) (tmClient t1)) as [[e|] c]; simpl.
  - destruct (decide (Error e = ErrAlreadySubscribed)) as [He|He];
      eexists _, _; (split; [reflexivity|]); simpl;
      rewrite <- !app_assoc; repeat split; try done.
    + intros _. by apply bool_decide_eq_true.
    + intros Hok. by apply bool_decide_eq_true in Hok.
  - eexists _, _. split; [reflexivity|]. simpl.
    rewrite <- !app_assoc. repeat split; done.
Qed.

End Props.

Section Stop.
Context `{env : Env} `{client : Client C} `{stopper : Stopper C}.
Context {AppInfo : Type} (zero_AppInfo : AppInfo).
Context (json_Unmarshal_Info : list Byte.byte → AppInfo → AppInfo * option error).
Context (ErrAlreadyStopped : error).

Implicit Types (t : TMStore C).

(** [StopWebsocket] unsubscribes first and stops the client only after
    that has succeeded and only when the client is running; it returns
    nil exactly when unsubscribing succeeded and the client was not
    running, stopped, or said that it had stopped already. It leaves the
    registered channels as they are. *)
Theorem StopWebsocket_unsubscribes_then_stops t :
  let unsubscribed := UnsubscribeAll Name (tmClient t) in
  let stopped := Stop (snd unsubscribed) in
  let '(err, calls, t') := StopWebsocket ErrAlreadyStopped t in
  (calls = [CallUnsubscribeAll Name; CallStop]
   ∨ calls = [CallUnsubscribeAll Name])
  ∧ (CallStop ∈ calls
     ↔ fst unsubscribed = None ∧ IsRunning (snd unsubscribed) = true)
  ∧ (err = None
     ↔ fst unsubscribed = None
       ∧ (IsRunning (snd unsubscribed) = false
          ∨ fst stopped = None ∨ fst stopped = Some ErrAlreadyStopped))
  ∧ storeEventChans t' = storeEventChans t.
Proof.
  unfold StopWebsocket.
  destruct (UnsubscribeAll Name (tmClient t)) as [[e|] c1] eqn:Hu; simpl.
  - split; [by right|]. split.
    + split; [|by intros [? _]].
      intros Hin. apply list_elem_of_singleton in Hin. done.
    + split; [|done]. split; [done|by intros [? _]].
  - destruct (IsRunning c1) eqn:Hrun.
    + destruct (Stop c1) as [[e|] c2] eqn:Hstop; simpl.
      * destruct (decide (e = ErrAlreadyStopped)) as [->|Hne]; simpl.
        -- split; [by left|]. split; [split; [done|]; intros _; right; by left|].
           split; [|done]. split; [|done]. intros _. split; [done|]. by right; right.
        -- split; [by left|]. split; [split; [done|]; intros _; right; by left|].
           split; [|done]. split; [done|].
           intros [_ [?|[?|Heq]]]; [done..|]. by injection Heq.
      * split; [by left|]. split; [split; [done|]; intros _; right; by left|].
        split; [|done]. split; [|done]. intros _. split; [done|]. right. by left.
    + split; [by right|]. split.
      * split; [|by intros [_ ?]].
        intros Hin. apply list_elem_of_singleton in Hin. done.
      * split; [|done]. split; [|done]. intros _. split; [done|]. by left.
Qed.

(** [GetInfo] returns the information or an error, never both and never
    neither; the information carries the name and the description of the
    store and the version and the commit of its configuration; and
    [GetInfo] only reads. *)
Theorem GetInfo_info_or_error config t info err t' :
  GetInfo zero_AppInfo json_Unmarshal_Info config t = Ok ((info, err), t') →
  read_only GetInfo_path t t'
  ∧ match info, err with
    | Some i, None =>
        info_Name i = "tm" ∧ info_Description i = Description
        ∧ info_Version i = Version config ∧ info_Commit i = Commit config
    | None, Some _ => True
    | _, _ => False
    end.
Proof.
  unfold GetInfo, mbind, M_bind.
  destruct (sendQuery _ _ t) as [[[res e] t1]| |] eqn:Hs; [|done..].
  apply sendQuery_read_only in Hs as Hro.
  destruct e as [e|]; [by intros [= <- <- <-]|].
  destruct res as [resp|]; [|done].
  destruct (json_Unmarshal_Info _ _) as [i [e|]]; by intros [= <- <- <-].
Qed.

End Stop.

(** *** On the sample clients *)

#[local] Abbreviation healthy_store := (samples.store_over samples.healthy).
#[local] Abbreviation queried path :=
  (after_call healthy_store (CallABCIQuery path []) samples.healthy).
#[local] Abbreviation nil_response :=
  ({| rq_Code := 0%N; rq_Value := None; rq_Log := "" |}).
#[local] Abbreviation value_response :=
  ({| rq_Code := 0%N; rq_Value := Some [Byte.x7b; Byte.x7d]; rq_Log := "" |}).

Lemma sendQuery_response_or_error_witness :
  (is_Some (Some nil_response) ↔ (None : option error) = None)
  ∧ read_only GetSegment_path healthy_store (queried GetSegment_path).
Proof.
  apply (sendQuery_response_or_error (env:=samples.sample_env)
           (client:=samples.script_client)
           GetSegment_path (ArgLinkHash samples.hash_a) healthy_store
           (Some nil_response) None (queried GetSegment_path)).
  reflexivity.
Defined.

(** The client that finds two pending events, with no channel
    registered. *)
Lemma notifyStoreChans_without_channels_witness :
  let t := {| tmEventChan := None; storeEventChans := [];
              tmClient := samples_ext.answering_value; trace := [];
              nextChan := 0 |} in
  notifyStoreChans (env:=samples_ext.events_env) (client:=samples.script_client) t
  = Ok (tt, after_call t (CallABCIQuery PendingEvents_path [])
              samples_ext.answering_value).
Proof.
  intros t.
  apply (notifyStoreChans_without_channels (env:=samples_ext.events_env)
           (client:=samples.script_client) []
           {| Response := value_response |} samples_ext.answering_value t);
    reflexivity.
Defined.

Lemma checked_reads_return_witness :
  (∃ r t', GetSegment (env:=samples.sample_env) (client:=samples.script_client)
             samples.hash_a healthy_store = Ok (r, t'))
  ∧ (∃ r t', FindSegments (env:=samples.sample_env) (client:=samples.script_client)
               "" healthy_store = Ok (r, t'))
  ∧ (∃ r t', GetEvidences (env:=samples.sample_env) (client:=samples.script_client)
               samples.hash_a healthy_store = Ok (r, t')).
Proof.
  apply (checked_reads_return (env:=samples.sample_env)
           (client:=samples.script_client) samples.hash_a "" healthy_store).
  intros path query. cbv. discriminate.
Defined.

Lemma CreateLink_broadcasts_at_most_once_witness :
  let t' := after_call healthy_store (CallBroadcastTxCommit []) samples.healthy in
  storeEventChans t' = storeEventChans healthy_store
  ∧ ∃ new,
      trace t' = trace healthy_store ++ new
      ∧ (new = [] ∨ ∃ tx, new = [CallBroadcastTxCommit tx])
      ∧ match Link_Hash (Env:=samples.sample_env) samples.link_a with
        | inr e => Some samples.hash_a = None ∧ None = Some e ∧ new = []
        | inl hv => Some samples.hash_a = Some hv
        end.
Proof.
  intros t'.
  apply (CreateLink_broadcasts_at_most_once (env:=samples.sample_env)
           (client:=samples.script_client) samples.link_a healthy_store
           (Some samples.hash_a) None t').
  reflexivity.
Defined.

Lemma registered_channel_is_served_last_witness :
  ∃ t1 t',
    AddStoreEventChannel 7 healthy_store = Ok (tt, t1)
    ∧ AddEvidence (env:=samples.sample_env) (client:=samples.script_client)
        samples.hash_a samples.evidence_1 t1 = Ok (None, t')
    ∧ storeEventChans t' = [0; 1] ++ [7]
    ∧ trace t'
      = trace healthy_store
        ++ CallABCIQuery AddEvidence_path []
           :: ((λ ch, Send ch (SavedEvidences
                                 {[Bytes32_String (Env:=samples.sample_env)
                                     samples.hash_a := samples.evidence_1]}))
                 <$> [0; 1] ++ [7]).
Proof.
  apply (registered_channel_is_served_last (env:=samples.sample_env)
           (client:=samples.script_client) samples.hash_a samples.evidence_1 7 []
           {| Response := nil_response |} samples.healthy healthy_store);
    reflexivity.
Defined.

Lemma StartWebsocket_cannot_start_witness :
  StartWebsocket (client:=samples.script_client) (samples.store_over samples_ext.dead)
  = Ok (Some (ErrNew "dial tcp: connection refused"),
        after_call (samples.store_over samples_ext.dead) CallStart samples_ext.dead).
Proof.
  apply (StartWebsocket_cannot_start (client:=samples.script_client)
           (samples.store_over samples_ext.dead)
           (ErrNew "dial tcp: connection refused") samples_ext.dead);
    [reflexivity|reflexivity|discriminate].
Defined.

(** The client whose subscription is always refused: the attempt fails,
    and its channel and goroutine are there all the same. *)
Lemma StartWebsocket_new_channel_each_time_witness :
  ∃ r t',
    StartWebsocket (client:=samples.script_client) (samples.store_over samples.down)
    = Ok (r, t')
    ∧ trace t' = [] ++ [MakeChan 2; GoForward 2; CallSubscribe Name 2]
    ∧ tmEventChan t' = Some 2
    ∧ nextChan t' = 3
    ∧ (r = None ↔ attempt_ok samples.refused = true).
Proof.
  apply (StartWebsocket_new_channel_each_time (client:=samples.script_client)
           (samples.store_over samples.down) (samples.store_over samples.down)).
  cbv. reflexivity.
Defined.

Lemma GetInfo_info_or_error_witness :
  let t := samples.store_over samples_ext.answering_value in
  let info := {| info_Name := "tm"; info_Description := Description;
                 info_TMAppInfo := "tmpop"; info_Version := "0.2.0";
                 info_Commit := "abcdef" |} in
  read_only GetInfo_path t
    (after_call t (CallABCIQuery GetInfo_path []) samples_ext.answering_value)
  ∧ (info_Name info = "tm" ∧ info_Description info = Description
     ∧ info_Version info = Version samples_ext.sample_config
     ∧ info_Commit info = Commit samples_ext.sample_config).
Proof.
  intros t info.
  apply (GetInfo_info_or_error (env:=samples.sample_env)
           (client:=samples.script_client) "" samples_ext.sample_Unmarshal_Info
           samples_ext.sample_config t (Some info) None
           (after_call t (CallABCIQuery GetInfo_path []) samples_ext.answering_value)).
  reflexivity.
Defined.

(** A stored segment that is found is not empty. *)
Lemma GetSegment_outcomes_witness :
  Segment_IsEmpty (Env:=samples_ext.finding_env) samples_ext.segment_a = false.
Proof.
  apply (GetSegment_outcomes (env:=samples_ext.finding_env)
           (client:=samples.script_client) samples.hash_a
           (samples.store_over samples_ext.answering_value)
           (Some samples_ext.segment_a) None
           (after_call (samples.store_over samples_ext.answering_value)
              (CallABCIQuery GetSegment_path []) samples_ext.answering_value)).
  reflexivity.
Defined.

(** Two pending events and two channels: four sends, event by event. *)
Lemma notifyStoreChans_fan_out_witness :
  let t := samples.store_over samples_ext.answering_value in
  notifyStoreChans (env:=samples_ext.events_env) (client:=samples.script_client) t
  = Ok (tt, after_effects
              (after_call t (CallABCIQuery PendingEvents_path [])
                 samples_ext.answering_value)
              (event ← samples_ext.two_events; (λ ch, Send ch event) <$> [0; 1])).
Proof.
  intros t.
  apply (notifyStoreChans_fan_out (env:=samples_ext.events_env)
           (client:=samples.script_client) []
           {| Response := value_response |} samples_ext.answering_value
           samples_ext.two_events None t);
    reflexivity.
Defined.

Lemma CreateLink_committed_witness :
  CreateLink (env:=samples.sample_env) (client:=samples.script_client)
    samples.link_a healthy_store
  = Ok ((Some samples.hash_a, None),
        after_call healthy_store (CallBroadcastTxCommit []) samples.healthy).
Proof.
  apply (CreateLink_committed (env:=samples.sample_env)
           (client:=samples.script_client) samples.link_a samples.hash_a []
           {| CheckTx := samples.ok_tx; DeliverTx := samples.ok_tx |}
           samples.healthy healthy_store);
    reflexivity.
Defined.

Lemma CreateLink_rejected_at_delivery_witness :
  let c := samples.answering samples_ext.rejected_at_delivery in
  CreateLink (env:=samples.sample_env) (client:=samples.script_client)
    samples.link_b (samples.store_over c)
  = Ok ((Some samples.hash_a, Some (ErrNew "reference not found")),
        after_call (samples.store_over c) (CallBroadcastTxCommit []) c).
Proof.
  intros c.
  apply (CreateLink_rejected_at_delivery (env:=samples.sample_env)
           (client:=samples.script_client) samples.link_b samples.hash_a []
           samples_ext.rejected_at_delivery c (samples.store_over c));
    reflexivity.
Defined.

End tmstore_props.

(** ** More on the Postgres batch *)

Module postgresstore_props.
Import cs goerr store postgresstore postgresstore_facts.

Section Props.
Context {Stmts : Type}.
Context (writer_CreateLink : Stmts → Link → SqlTx → (option Bytes32 * option error) * SqlTx).

Implicit Types (b : Batch Stmts) (w : World) (links : list Link).

(** The batch keeps every link that [CreateLink] was called with, in the
    order of the calls and whatever the writer answered; the calls leave
    its channels, its statements and its [done] flag alone, and each call
    answers what the writer answers. *)
Theorem Batch_keeps_every_link b links :
  Links (CreateLinks writer_CreateLink b links) = Links b ++ links
  ∧ eventChans (CreateLinks writer_CreateLink b links) = eventChans b
  ∧ done (CreateLinks writer_CreateLink b links) = done b
  ∧ ∀ link, fst (CreateLink writer_CreateLink b link)
            = fst (writer_CreateLink (stmts b) link (tx b)).
Proof.
  split; [|split; [|split]].
  - apply CreateLinks_fields.
  - apply CreateLinks_fields.
  - revert b. induction links as [|link links IH]; intros b; simpl; [done|].
    rewrite IH. apply CreateLink_fields.
  - intros link. unfold CreateLink.
    by destruct (writer_CreateLink (stmts b) link (tx b)).
Qed.

End Props.

(** A batch written twice: the second [Write] answers [ErrTxDone] and
    sends nothing. *)
Lemma Batch_Write_twice_witness :
  let b := CreateLinks samples.sample_writer
             {| stmts := tt; Links := []; eventChans := [0; 1]; done := false;
                tx := samples.open_tx None |}
             [samples.link_a] in
  ∃ b'', Write (snd (fst (Write b samples.empty_world)))
           (snd (Write b samples.empty_world))
         = (Some ErrTxDone, b'', snd (Write b samples.empty_world)).
Proof.
  intros b.
  apply (Batch_Write_twice b samples.empty_world None
           (snd (fst (Write b samples.empty_world)))
           (snd (Write b samples.empty_world))).
  reflexivity.
Defined.

End postgresstore_props.

(** ** The transformer of the blockchain fossilizer *)

Module bcbatchfossilizer_props.
Import cs goerr bcbatchfossilizer.

Section Props.
Context `{ts : HashTimestamper T}.

Implicit Types (a : Fossilizer T) (ev : BatchEvidence) (r : Bytes32).

Lemma root_changed_other a r :
  lastRoot a ≠ Some r → root_changed a (Some r) = Some true.
Proof.
  unfold root_changed. destruct (lastRoot a) as [last|]; [|done].
  intros Hne. rewrite bool_decide_eq_false_2; [done|]. by intros ->.
Qed.

Lemma root_changed_same a r :
  lastRoot a = Some r → root_changed a (Some r) = Some false.
Proof. unfold root_changed. intros ->. by rewrite bool_decide_eq_true_2. Qed.

(** On an evidence and a configuration that are there (the model has no
    nil evidence and no nil configuration), [transform] panics exactly
    when the fossilizer has a last root and the evidence has none. *)
Lemma transform_panics_iff ev data meta a :
  transform ev data meta a = Panics ↔ is_Some (lastRoot a) ∧ Root ev = None.
Proof.
  unfold transform, root_changed.
  destruct (lastRoot a) as [last|] eqn:Hl.
  - destruct (Root ev) as [r|] eqn:Hr.
    + split; [|by intros [_ ?]].
      destruct (negb (bool_decide (r = last))); [|done].
      by destruct (TimestampHash (Some r) (timestamper a)) as [[txid [e|]] ts'].
    + split; [by eauto|done].
  - split; [|by intros [[? ?] _]].
    by destruct (TimestampHash (Root ev) (timestamper a)) as [[txid [e|]] ts'].
Qed.


(** After a result, the last root of the fossilizer is the root of the
    evidence, and the result holds, under the name of the network, the
    evidence with the last transaction id; a result never comes with an
    error. *)
Theorem transform_result_carries_last_transaction ev data meta a res err a' :
  transform ev data meta a = Returns ((Some res, err), a') →
  err = None ∧ lastRoot a' = Root ev ∧ res = wrap a' ev data meta.
Proof.
  unfold transform, root_changed.
  destruct (lastRoot a) as [last|] eqn:Hl.
  - destruct (Root ev) as [r|] eqn:Hr; [|done].
    destruct (bool_decide (r = last)) eqn:Hb; simpl.
    + apply bool_decide_eq_true in Hb as ->. intros [= <- <- <-]. by rewrite Hl.
    + destruct (TimestampHash (Some r) (timestamper a)) as [[txid [e|]] ts'];
        [done|]. by intros [= <- <- <-].
  - destruct (TimestampHash (Root ev) (timestamper a)) as [[txid [e|]] ts'];
      [done|]. by intros [= <- <- <-].
Qed.

(** When the timestamper fails, [transform] returns its error and no
    result, and keeps the last root and the last transaction id as they
    were: the next evidence with this root goes to the timestamper
    again. *)
Theorem transform_failure_is_not_remembered ev data meta a txid e ts' :
  root_changed a (Root ev) = Some true →
  TimestampHash (Root ev) (timestamper a) = (txid, Some e, ts') →
  ∃ a',
    transform ev data meta a = Returns ((None, Some e), a')
    ∧ lastRoot a' = lastRoot a
    ∧ lastTransactionID a' = lastTransactionID a
    ∧ timestamped a' = timestamped a ++ [Root ev]
    ∧ root_changed a' (Root ev) = Some true.
Proof.
  intros Hch Hts. unfold transform. rewrite Hch, Hts.
  eexists. split; [reflexivity|]. by repeat split.
Qed.

Lemma transform_all_cached r evs a :
  lastRoot a = Some r →
  Forall (λ ev, Root ev = Some r) evs →
  transform_all evs a = Returns ((λ ev, wrap a ev [] []) <$> evs, None, a).
Proof.
  intros Hl. induction 1 as [|ev evs Hr _ IH]; simpl; [done|].
  unfold transform. rewrite Hr, (root_changed_same a r Hl). by rewrite IH.
Qed.

(** One transaction for a batch: when the evidences of a batch all have
    the root [r], which is not the last root, and the timestamper
    accepts it, the timestamper is called once, for the first evidence,
    and every result of the batch carries the id of that transaction. *)
Theorem one_timestamp_per_batch r ev evs a txid ts' :
  lastRoot a ≠ Some r →
  Root ev = Some r →
  Forall (λ ev, Root ev = Some r) evs →
  TimestampHash (Some r) (timestamper a) = (txid, None, ts') →
  let a' := {| timestamper := ts'; lastRoot := Some r;
               lastTransactionID := txid;
               timestamped := timestamped a ++ [Some r] |} in
  transform_all (ev :: evs) a
  = Returns ((λ ev, wrap a' ev [] []) <$> ev :: evs, None, a').
Proof.
  intros Hne Hr Hall Hts a'. simpl. unfold transform.
  rewrite Hr, (root_changed_other a r Hne), Hts. fold a'.
  by rewrite (transform_all_cached r evs a').
Qed.

End Props.

#[local] Existing Instance samples_ext.chain.

Lemma transform_result_carries_last_transaction_witness :
  let ev := samples_ext.evidence_of samples.hash_a in
  let a' := {| timestamper := 1; lastRoot := Some samples.hash_a;
               lastTransactionID := [Byte.x00];
               timestamped := [Some samples.hash_a] |} in
  (None : option error) = None
  ∧ lastRoot a' = Root ev
  ∧ wrap a' ev [] [] = wrap a' ev [] [].
Proof.
  intros ev a'.
  apply (transform_result_carries_last_transaction ev [] []
           samples_ext.fresh_fossilizer (wrap a' ev [] []) None a').
  reflexivity.
Defined.

(** A fossilizer that has timestamped the root [hash_b] gets an evidence
    with the root [hash_a] while the node of the timestamper cannot be
    reached. *)
Lemma transform_failure_is_not_remembered_witness :
  let ev := samples_ext.evidence_of samples.hash_a in
  let a := samples_ext.fossilizer_after_b in
  ∃ a',
    transform (ts:=samples_ext.offline_chain) ev [] [] a
    = Returns ((None, Some (ErrNew "node unreachable")), a')
    ∧ lastRoot a' = lastRoot a
    ∧ lastTransactionID a' = lastTransactionID a
    ∧ timestamped a' = timestamped a ++ [Root ev]
    ∧ root_changed a' (Root ev) = Some true.
Proof.
  intros ev a.
  apply (transform_failure_is_not_remembered (ts:=samples_ext.offline_chain)
           ev [] [] a [] (ErrNew "node unreachable") 1);
    reflexivity.
Defined.


(** A batch of three evidences with one root on a fresh fossilizer. *)
Lemma one_timestamp_per_batch_witness :
  let ev := samples_ext.evidence_of samples.hash_a in
  let a' := {| timestamper := 1; lastRoot := Some samples.hash_a;
               lastTransactionID := [Byte.x00];
               timestamped := [] ++ [Some samples.hash_a] |} in
  transform_all [ev; ev; ev] samples_ext.fresh_fossilizer
  = Returns ((λ ev, wrap a' ev [] []) <$> [ev; ev; ev], None, a').
Proof.
  intros ev a'.
  apply (one_timestamp_per_batch samples.hash_a ev [ev; ev]
           samples_ext.fresh_fossilizer [Byte.x00] 1).
  - discriminate.
  - reflexivity.
  - repeat constructor.
  - reflexivity.
Defined.

End bcbatchfossilizer_props.
